(** * CityGuard: the keystream cipher, the hex wire encoding, the key
    derivation and the report ledger

    A shallow embedding of
    - [frontend/utils/chacha20.ts] (module [ChaCha20], compared with the
      keystream block of the design document in [KeystreamSpec]),
    - [frontend/utils/bytes.ts] (module [Bytes]),
    - [deriveKeyFromPasswordAddress] and [generateRandomAddress] of
      [ReportSubmit.tsx] and [ReportList.tsx] (module [KeyDerivation]),
    - the encryption and decryption steps of the two components (module
      [ReportContent]),
    - [contracts/CityGuard.sol] (module [CityGuard]),
    with the properties the design document states about them and others
    the code shows. *)

From Stdlib Require Import ZArith List Lia Bool Ascii String.
Import ListNotations.

Local Open Scope Z_scope.

(** ** ECMAScript numbers and typed arrays

    Integral JavaScript numbers are modelled as [Z]. The bit operators of
    the language first coerce their operands to 32-bit integers; the
    coercions are written out. *)
Module JS.

(** [ToUint32]: the value modulo [2^32]. *)
Definition ToUint32 (x : Z) : Z := x mod 2 ^ 32.

(** [ToInt32]: the representative of [x] modulo [2^32] in
    [[-2^31, 2^31)]. *)
Definition ToInt32 (x : Z) : Z :=
  let u := x mod 2 ^ 32 in
  if u <? 2 ^ 31 then u else u - 2 ^ 32.

(** [ToUint8], the conversion a [Uint8Array] applies on a store. *)
Definition ToUint8 (x : Z) : Z := x mod 2 ^ 8.

(** [a | b] and [a ^ b]: the operation on the two's complement
    representations of the operands coerced by [ToInt32]. On [Z] the
    bitwise operations are those of the infinite two's complement
    representation, so the result is again a signed 32-bit integer. *)
Definition bitor (a b : Z) : Z := Z.lor (ToInt32 a) (ToInt32 b).
Definition bitxor (a b : Z) : Z := Z.lxor (ToInt32 a) (ToInt32 b).

(** [a << c]: the shift count is taken modulo 32 and the result is
    truncated to a signed 32-bit integer. *)
Definition shl (a c : Z) : Z :=
  ToInt32 (Z.shiftl (ToInt32 a) (ToUint32 c mod 32)).

(** [a >>> c]: the left operand is coerced by [ToUint32], the result is
    unsigned. *)
Definition ushr (a c : Z) : Z :=
  Z.shiftr (ToUint32 a) (ToUint32 c mod 32).

(** Indexed store into an array. A typed array has a fixed length: a
    store out of range is ignored. *)
Fixpoint upd (l : list Z) (i : nat) (v : Z) : list Z :=
  match l, i with
  | [], _ => []
  | _ :: t, O => v :: t
  | h :: t, S i' => h :: upd t i' v
  end.

(** Indexed read. Out of range a typed array yields [undefined], which
    the bit operators that consume every read below coerce to [0]. *)
Definition get (l : list Z) (i : nat) : Z := nth i l 0.

(** [new Uint8Array(n)] and [new Uint32Array(n)]: [n] zeros. *)
Definition zeros (n : nat) : list Z := repeat 0 n.

Definition u32_set (a : list Z) (i : nat) (v : Z) : list Z :=
  upd a i (ToUint32 v).

Definition u8_set (a : list Z) (i : nat) (v : Z) : list Z :=
  upd a i (ToUint8 v).

(** [DataView.prototype.setUint32(off, v, true)]: the four bytes of
    [ToUint32 v], least significant first, at [off .. off+3]. *)
Definition setUint32_le (buf : list Z) (off : nat) (v : Z) : list Z :=
  let w := ToUint32 v in
  let buf := upd buf off (w mod 256) in
  let buf := upd buf (off + 1) ((w / 2 ^ 8) mod 256) in
  let buf := upd buf (off + 2) ((w / 2 ^ 16) mod 256) in
  upd buf (off + 3) ((w / 2 ^ 24) mod 256).

(** How a call completes: normally with a value, abruptly with a thrown
    error, or not at all within the number of loop iterations allowed. *)
Inductive completion (A : Type) : Type :=
| Normal (v : A)
| Throw (message : string)
| Unfinished.

Arguments Normal {A} v.
Arguments Throw {A} message.
Arguments Unfinished {A}.

(** A well-formed [Uint8Array] holds bytes, a [Uint32Array] words. *)
Definition is_byte (b : Z) : Prop := 0 <= b < 2 ^ 8.
Definition is_word (w : Z) : Prop := 0 <= w < 2 ^ 32.
Definition bytes (l : list Z) : Prop := Forall is_byte l.
Definition words (l : list Z) : Prop := Forall is_word l.


(** *** Facts about indexed stores and reads *)

Lemma length_upd (l : list Z) (i : nat) (v : Z) :
  List.length (upd l i v) = List.length l.
Proof.
  revert i; induction l as [|h t IH]; intros [|i]; simpl; auto.
Qed.

Lemma get_upd_eq (l : list Z) (i : nat) (v : Z) :
  (i < List.length l)%nat -> get (upd l i v) i = v.
Proof.
  unfold get; revert i; induction l as [|h t IH]; intros [|i] Hi;
    simpl in *; try lia; auto.
  apply IH; lia.
Qed.

Lemma get_upd_neq (l : list Z) (i j : nat) (v : Z) :
  i <> j -> get (upd l i v) j = get l j.
Proof.
  unfold get; revert i j; induction l as [|h t IH]; intros [|i] [|j] Hij;
    simpl; auto; try congruence.
Qed.

Lemma get_upd (l : list Z) (i j : nat) (v : Z) :
  (i < List.length l)%nat ->
  get (upd l i v) j = if Nat.eqb i j then v else get l j.
Proof.
  intros Hi. destruct (Nat.eqb_spec i j) as [->|Hne].
  - now apply get_upd_eq.
  - now apply get_upd_neq.
Qed.

Lemma Forall_upd (P : Z -> Prop) (l : list Z) (i : nat) (v : Z) :
  Forall P l -> P v -> Forall P (upd l i v).
Proof.
  intros Hl Hv; revert i; induction Hl as [|h t Hh Ht IH]; intros [|i];
    simpl; auto.
Qed.

Lemma Forall_get (P : Z -> Prop) (l : list Z) (i : nat) :
  Forall P l -> (i < List.length l)%nat -> P (get l i).
Proof.
  unfold get; intros Hl; revert i; induction Hl as [|h t Hh Ht IH];
    intros [|i] Hi; simpl in *; try lia; auto.
  apply IH; lia.
Qed.

Lemma list_eq_get (l1 l2 : list Z) :
  List.length l1 = List.length l2 ->
  (forall i, (i < List.length l1)%nat -> get l1 i = get l2 i) ->
  l1 = l2.
Proof.
  unfold get; revert l2; induction l1 as [|h t IH]; intros [|h2 t2] Hlen Hget;
    simpl in *; try discriminate; auto.
  f_equal.
  - apply (Hget 0%nat); lia.
  - apply IH; [lia|]. intros i Hi. apply (Hget (S i)); lia.
Qed.

Lemma length_zeros (n : nat) : List.length (zeros n) = n.
Proof. apply repeat_length. Qed.

Lemma get_zeros (n i : nat) : get (zeros n) i = 0.
Proof.
  unfold get, zeros; revert i; induction n; intros [|i]; simpl; auto.
Qed.

Lemma bytes_zeros (n : nat) : bytes (zeros n).
Proof.
  unfold bytes, zeros; induction n; simpl; constructor; auto.
  unfold is_byte; lia.
Qed.

(** *** Facts about the 32-bit coercions *)

Lemma ToInt32_small (x : Z) : 0 <= x < 2 ^ 31 -> ToInt32 x = x.
Proof.
  intros Hx; unfold ToInt32.
  assert (E : x mod 2 ^ 32 = x) by (apply Z.mod_small; lia).
  rewrite E. destruct (Z.ltb_spec x (2 ^ 31)); lia.
Qed.

Lemma ToInt32_mod (x : Z) : ToInt32 x mod 2 ^ 32 = x mod 2 ^ 32.
Proof.
  unfold ToInt32.
  destruct (Z.ltb_spec (x mod 2 ^ 32) (2 ^ 31)).
  - apply Z.mod_mod; lia.
  - replace (x mod 2 ^ 32 - 2 ^ 32) with (x mod 2 ^ 32 + (-1) * 2 ^ 32) by lia.
    rewrite Z.mod_add by lia. apply Z.mod_mod; lia.
Qed.

Lemma testbit_small (n a m : Z) :
  0 <= a < 2 ^ n -> n <= m -> Z.testbit a m = false.
Proof.
  intros Ha Hm.
  destruct (Z.ltb_spec n 0) as [Hn|Hn].
  - rewrite Z.pow_neg_r in Ha by lia. lia.
  - rewrite <- (Z.mod_small a (2 ^ n)) by lia.
    apply Z.mod_pow2_bits_high; lia.
Qed.

Lemma lxor_small (n a b : Z) :
  0 <= n -> 0 <= a < 2 ^ n -> 0 <= b < 2 ^ n -> 0 <= Z.lxor a b < 2 ^ n.
Proof.
  intros Hn Ha Hb.
  assert (E : Z.lxor a b mod 2 ^ n = Z.lxor a b).
  { apply Z.bits_inj'; intros m Hm.
    rewrite Z.testbit_mod_pow2 by lia.
    destruct (Z.ltb_spec m n) as [Hlt|Hge]; simpl; auto.
    rewrite Z.lxor_spec, (testbit_small n a m), (testbit_small n b m);
      auto. }
  rewrite <- E. apply Z.mod_pos_bound. apply Z.pow_pos_nonneg; lia.
Qed.

Lemma bitxor_bytes (a b : Z) :
  is_byte a -> is_byte b -> ToUint8 (bitxor a b) = Z.lxor a b.
Proof.
  unfold is_byte, ToUint8, bitxor; intros Ha Hb.
  rewrite !ToInt32_small by lia.
  apply Z.mod_small. apply lxor_small; lia.
Qed.

Lemma is_byte_lxor (a b : Z) : is_byte a -> is_byte b -> is_byte (Z.lxor a b).
Proof. unfold is_byte; intros; apply lxor_small; lia. Qed.

Lemma lxor_cancel (a b : Z) : Z.lxor (Z.lxor a b) b = a.
Proof. now rewrite Z.lxor_assoc, Z.lxor_nilpotent, Z.lxor_0_r. Qed.


Lemma ToUint32_small (x : Z) : is_word x -> ToUint32 x = x.
Proof. unfold is_word, ToUint32; intros; now apply Z.mod_small. Qed.

Lemma is_word_ToUint32 (x : Z) : is_word (ToUint32 x).
Proof. unfold is_word, ToUint32. apply Z.mod_pos_bound; lia. Qed.

Lemma ToUint32_idem (x : Z) : ToUint32 (ToUint32 x) = ToUint32 x.
Proof. apply ToUint32_small, is_word_ToUint32. Qed.

Lemma ToUint32_ToInt32 (x : Z) : ToUint32 (ToInt32 x) = ToUint32 x.
Proof. apply ToInt32_mod. Qed.

Lemma ToUint32_lor (a b : Z) :
  ToUint32 (Z.lor a b) = Z.lor (ToUint32 a) (ToUint32 b).
Proof.
  unfold ToUint32. apply Z.bits_inj'; intros m Hm.
  rewrite Z.lor_spec, !Z.testbit_mod_pow2, Z.lor_spec by lia.
  destruct (m <? 32); reflexivity.
Qed.

Lemma ToUint32_lxor (a b : Z) :
  ToUint32 (Z.lxor a b) = Z.lxor (ToUint32 a) (ToUint32 b).
Proof.
  unfold ToUint32. apply Z.bits_inj'; intros m Hm.
  rewrite Z.lxor_spec, !Z.testbit_mod_pow2, Z.lxor_spec by lia.
  destruct (m <? 32); reflexivity.
Qed.

Lemma ToUint32_shiftl (a c : Z) :
  0 <= c -> ToUint32 (Z.shiftl a c) = ToUint32 (Z.shiftl (ToUint32 a) c).
Proof.
  intros Hc. unfold ToUint32. apply Z.bits_inj'; intros m Hm.
  rewrite !Z.testbit_mod_pow2, !Z.shiftl_spec, Z.testbit_mod_pow2 by lia.
  destruct (Z.ltb_spec m 32); simpl; auto.
  destruct (Z.ltb_spec (m - c) 32); simpl; auto; lia.
Qed.

Lemma ToUint32_bitor (a b : Z) :
  ToUint32 (bitor a b) = Z.lor (ToUint32 a) (ToUint32 b).
Proof. unfold bitor. now rewrite ToUint32_lor, !ToUint32_ToInt32. Qed.

Lemma ToUint32_bitxor (a b : Z) :
  ToUint32 (bitxor a b) = Z.lxor (ToUint32 a) (ToUint32 b).
Proof. unfold bitxor. now rewrite ToUint32_lxor, !ToUint32_ToInt32. Qed.

Lemma shift_count (c : Z) : 0 <= c < 32 -> ToUint32 c mod 32 = c.
Proof.
  intros Hc. unfold ToUint32.
  rewrite (Z.mod_small c (2 ^ 32)) by lia. apply Z.mod_small; lia.
Qed.

Lemma ToUint32_shl (a c : Z) :
  0 <= c < 32 -> ToUint32 (shl a c) = ToUint32 (ToUint32 a * 2 ^ c).
Proof.
  intros Hc. unfold shl. rewrite shift_count by assumption.
  rewrite ToUint32_ToInt32, ToUint32_shiftl, ToUint32_ToInt32 by lia.
  now rewrite Z.shiftl_mul_pow2 by lia.
Qed.

Lemma ushr_div (a c : Z) :
  0 <= c < 32 -> ushr a c = ToUint32 a / 2 ^ c.
Proof.
  intros Hc. unfold ushr. rewrite shift_count by assumption.
  apply Z.shiftr_div_pow2; lia.
Qed.

Lemma ushr_0 (a : Z) : ushr a 0 = ToUint32 a.
Proof. rewrite ushr_div by lia. apply Z.div_1_r. Qed.

(** Two numbers that occupy disjoint bit ranges: their bitwise or is
    their sum. *)
Lemma lor_disjoint (hi lo k : Z) :
  0 <= k -> 0 <= lo < 2 ^ k -> hi mod 2 ^ k = 0 -> Z.lor hi lo = hi + lo.
Proof.
  intros Hk Hlo Hhi.
  assert (E : Z.land hi lo = 0).
  { apply Z.bits_inj'; intros m Hm.
    rewrite Z.land_spec, Z.bits_0.
    destruct (Z.ltb_spec m k) as [Hlt|Hge].
    - rewrite <- (Z.mod_pow2_bits_low hi k m Hlt), Hhi, Z.bits_0.
      reflexivity.
    - rewrite (testbit_small k lo m) by assumption.
      apply andb_false_r. }
  now rewrite Z.add_nocarry_lxor, Z.lxor_lor.
Qed.


(** *** A loop of indexed stores *)

Lemma fold_left_ext {A B : Type} (f g : A -> B -> A) (l : list B) (a : A) :
  (forall a' x, f a' x = g a' x) -> fold_left f l a = fold_left g l a.
Proof.
  intros H; revert a; induction l as [|x l IH]; intros a; simpl;
    [reflexivity|]. now rewrite H, IH.
Qed.


(** [for (i < n) a[off + i] = f(i)], all stores in range. *)
Lemma fold_upd_length (f : nat -> Z) (off n : nat) (a : list Z) :
  List.length (fold_left (fun a i => upd a (off + i) (f i)) (seq 0 n) a)
  = List.length a.
Proof.
  induction n as [|n IH]; [reflexivity|].
  rewrite seq_S, fold_left_app. simpl. now rewrite length_upd.
Qed.

Lemma fold_upd_get (f : nat -> Z) (off n : nat) (a : list Z) (j : nat) :
  (off + n <= List.length a)%nat ->
  get (fold_left (fun a i => upd a (off + i) (f i)) (seq 0 n) a) j
  = if (off <=? j)%nat && (j <? off + n)%nat then f (j - off)%nat
    else get a j.
Proof.
  induction n as [|n IH]; intros Hn.
  - simpl. destruct (Nat.leb_spec off j), (Nat.ltb_spec j (off + 0));
      simpl; auto; lia.
  - rewrite seq_S, fold_left_app. simpl.
    rewrite get_upd by (rewrite fold_upd_length; lia).
    rewrite IH by lia.
    destruct (Nat.eqb_spec (off + n) j) as [<-|Hne].
    + replace (off + n - off)%nat with n by lia.
      destruct (Nat.leb_spec off (off + n)),
        (Nat.ltb_spec (off + n) (off + S n)); simpl; auto; lia.
    + destruct (Nat.leb_spec off j), (Nat.ltb_spec j (off + n)),
        (Nat.ltb_spec j (off + S n)); simpl; auto; lia.
Qed.


Lemma Forall_of_get (P : Z -> Prop) (l : list Z) :
  (forall j, (j < List.length l)%nat -> P (get l j)) -> Forall P l.
Proof.
  unfold get; induction l as [|h t IH]; intros H; constructor.
  - apply (H 0%nat). simpl; lia.
  - apply IH. intros j Hj. apply (H (S j)). simpl; lia.
Qed.

End JS.

(** ** The keystream block in the words of the design document

    Section 4.1: a 16-word state made of 4 constant words, 8 little-endian
    key words, the block counter and 3 little-endian nonce words; ten
    double rounds of a quarter round built from additions modulo [2^32],
    xor and left rotations by 16, 12, 8 and 7 over the column and the
    diagonal index groups; the word-wise sum with the initial state,
    serialized little-endian. This is the reference [chacha20Block] is
    compared with. *)
Module KeystreamSpec.

Definition add32 (x y : Z) : Z := (x + y) mod 2 ^ 32.

(** Left rotation of a 32-bit word by [c] bits: the low [32 - c] bits
    move up by [c] places and the top [c] bits wrap around. *)
Definition rotl (w c : Z) : Z :=
  (w mod 2 ^ (32 - c)) * 2 ^ c + w / 2 ^ (32 - c).

Definition quarter (q : Z * Z * Z * Z) : Z * Z * Z * Z :=
  let '(a, b, c, d) := q in
  let a := add32 a b in
  let d := rotl (Z.lxor d a) 16 in
  let c := add32 c d in
  let b := rotl (Z.lxor b c) 12 in
  let a := add32 a b in
  let d := rotl (Z.lxor d a) 8 in
  let c := add32 c d in
  let b := rotl (Z.lxor b c) 7 in
  (a, b, c, d).

(** The quarter round applied to the four words at the given indices. *)
Definition quarter_at (st : list Z) (ix : nat * nat * nat * nat) : list Z :=
  let '(i, j, k, l) := ix in
  let '(a, b, c, d) :=
    quarter (nth i st 0, nth j st 0, nth k st 0, nth l st 0) in
  JS.upd (JS.upd (JS.upd (JS.upd st i a) j b) k c) l d.

Definition columns : list (nat * nat * nat * nat) :=
  [(0, 4, 8, 12); (1, 5, 9, 13); (2, 6, 10, 14); (3, 7, 11, 15)]%nat.

Definition diagonals : list (nat * nat * nat * nat) :=
  [(0, 5, 10, 15); (1, 6, 11, 12); (2, 7, 8, 13); (3, 4, 9, 14)]%nat.

Definition double_round (st : list Z) : list Z :=
  fold_left quarter_at (columns ++ diagonals) st.

(** A word from four bytes, least significant first. *)
Definition le32 (b0 b1 b2 b3 : Z) : Z :=
  b0 + 2 ^ 8 * b1 + 2 ^ 16 * b2 + 2 ^ 24 * b3.

Fixpoint le_words (bs : list Z) : list Z :=
  match bs with
  | b0 :: b1 :: b2 :: b3 :: rest => le32 b0 b1 b2 b3 :: le_words rest
  | _ => []
  end.

(** The four bytes of a word, least significant first. *)
Definition le_bytes (w : Z) : list Z :=
  [w mod 2 ^ 8; (w / 2 ^ 8) mod 2 ^ 8;
   (w / 2 ^ 16) mod 2 ^ 8; (w / 2 ^ 24) mod 2 ^ 8].

(** The constant words, the ASCII text [expand 32-byte k] read as four
    little-endian words. *)
Definition sigma : list Z :=
  [0x61707865; 0x3320646e; 0x79622d32; 0x6b206574].

Definition initial_state (key : list Z) (counter : Z) (nonce : list Z)
  : list Z :=
  sigma ++ le_words key ++ [counter] ++ le_words nonce.

Fixpoint add_words (xs ys : list Z) : list Z :=
  match xs, ys with
  | x :: xs', y :: ys' => add32 x y :: add_words xs' ys'
  | _, _ => []
  end.

Definition keystream_block (key : list Z) (counter : Z) (nonce : list Z)
  : list Z :=
  let s0 := initial_state key counter nonce in
  let s := Nat.iter 10 double_round s0 in
  flat_map le_bytes (add_words s s0).

End KeystreamSpec.

(** ** [frontend/utils/chacha20.ts] *)
Module ChaCha20.
Import JS.

Definition rotl32 (v c : Z) : Z :=
  ushr (bitor (shl v c) (ushr v (32 - c))) 0.

Definition quarterRound (state : list Z) (a b c d : nat) : list Z :=
  let state := u32_set state a (get state a + get state b) in
  let state := u32_set state d (rotl32 (bitxor (get state d) (get state a)) 16) in
  let state := u32_set state c (get state c + get state d) in
  let state := u32_set state b (rotl32 (bitxor (get state b) (get state c)) 12) in
  let state := u32_set state a (get state a + get state b) in
  let state := u32_set state d (rotl32 (bitxor (get state d) (get state a)) 8) in
  let state := u32_set state c (get state c + get state d) in
  u32_set state b (rotl32 (bitxor (get state b) (get state c)) 7).

Definition constants : list Z :=
  [0x65; 0x78; 0x70; 0x61; 0x6e; 0x64; 0x20; 0x33;
   0x32; 0x2d; 0x62; 0x79; 0x74; 0x65; 0x20; 0x6b].

(** [(src[i*4] | (src[i*4+1] << 8) | (src[i*4+2] << 16) |
    (src[i*4+3] << 24)) >>> 0] *)
Definition le_word (src : list Z) (i : nat) : Z :=
  ushr
    (bitor
       (bitor
          (bitor (get src (i * 4)) (shl (get src (i * 4 + 1)) 8))
          (shl (get src (i * 4 + 2)) 16))
       (shl (get src (i * 4 + 3)) 24))
    0.

(** [for (let i = 0; i < n; i++) state[base + i] = le_word(src, i)] *)
Definition load_words (src : list Z) (base n : nat) (state : list Z)
  : list Z :=
  fold_left (fun st i => u32_set st (base + i) (le_word src i))
            (seq 0 n) state.

(** The sixteen words the block function starts from. *)
Definition init_state (key : list Z) (counter : Z) (nonce : list Z)
  : list Z :=
  let state := zeros 16 in
  let state := load_words constants 0 4 state in
  let state := load_words key 4 8 state in
  let state := u32_set state 12 (ushr counter 0) in
  load_words nonce 13 3 state.

(** The body of the loop over the ten double rounds. *)
Definition double_round (working : list Z) : list Z :=
  let working := quarterRound working 0 4 8 12 in
  let working := quarterRound working 1 5 9 13 in
  let working := quarterRound working 2 6 10 14 in
  let working := quarterRound working 3 7 11 15 in
  let working := quarterRound working 0 5 10 15 in
  let working := quarterRound working 1 6 11 12 in
  let working := quarterRound working 2 7 8 13 in
  quarterRound working 3 4 9 14.

(** [for (i < 16) working[i] = (working[i] + state[i]) >>> 0] *)
Definition add_state (state working : list Z) : list Z :=
  fold_left
    (fun w i => u32_set w i (ushr (get w i + get state i) 0))
    (seq 0 16) working.

(** [for (i < 16) view.setUint32(i * 4, working[i], true)], on the
    64-byte buffer of the view, copied into [output]. *)
Definition serialize (working : list Z) : list Z :=
  fold_left
    (fun buf i => setUint32_le buf (i * 4) (get working i))
    (seq 0 16) (zeros 64).

Definition chacha20Block (key : list Z) (counter : Z) (nonce : list Z)
  : list Z :=
  let state := init_state key counter nonce in
  let working := state in
  let working := Nat.iter 10 double_round working in
  let working := add_state state working in
  serialize working.

(** The inner loop of [chacha20Encrypt]:
    [for (i < blockSize) ciphertext[pos + i] = plaintext[pos + i] ^ block[i]] *)
Definition xor_block (plaintext block : list Z) (pos blockSize : nat)
  (ciphertext : list Z) : list Z :=
  fold_left
    (fun ct i =>
       u8_set ct (pos + i) (bitxor (get plaintext (pos + i)) (get block i)))
    (seq 0 blockSize) ciphertext.

(** The [while (pos < plaintext.length)] loop, [fuel] bounding the
    number of iterations. *)
Fixpoint encrypt_loop (fuel : nat) (key nonce plaintext : list Z)
  (ciphertext : list Z) (counter : Z) (pos : nat)
  : completion (list Z) :=
  if (pos <? List.length plaintext)%nat then
    match fuel with
    | O => Unfinished
    | S fuel' =>
        let block := chacha20Block key counter nonce in
        let remaining := (List.length plaintext - pos)%nat in
        let blockSize := Nat.min 64 remaining in
        let ciphertext := xor_block plaintext block pos blockSize ciphertext in
        encrypt_loop fuel' key nonce plaintext ciphertext
                     (counter + 1) (pos + blockSize)
    end
  else Normal ciphertext.

(** Every iteration consumes at least one byte, so [plaintext.length]
    iterations are allowed. The source has no [throw] and checks neither
    length. *)
Definition chacha20Encrypt (key nonce plaintext : list Z)
  : completion (list Z) :=
  encrypt_loop (List.length plaintext) key nonce plaintext
               (zeros (List.length plaintext)) 0 0%nat.

Definition chacha20Decrypt (key nonce ciphertext : list Z)
  : completion (list Z) :=
  chacha20Encrypt key nonce ciphertext.

(** The first keystream block of RFC 8439's ChaCha20 for the all-zero key
    and nonce and block counter 0. *)
Definition reference_block : list Z :=
  [0x76; 0xb8; 0xe0; 0xad; 0xa0; 0xf1; 0x3d; 0x90;
   0x40; 0x5d; 0x6a; 0xe5; 0x53; 0x86; 0xbd; 0x28;
   0xbd; 0xd2; 0x19; 0xb8; 0xa0; 0x8d; 0xed; 0x1a;
   0xa8; 0x36; 0xef; 0xcc; 0x8b; 0x77; 0x0d; 0xc7;
   0xda; 0x41; 0x59; 0x7c; 0x51; 0x57; 0x48; 0x8d;
   0x77; 0x24; 0xe0; 0x3f; 0xb8; 0xd8; 0x4a; 0x37;
   0x6a; 0x43; 0xb8; 0xf4; 0x15; 0x18; 0xa1; 0x1c;
   0xc3; 0x87; 0xb6; 0x69; 0xb2; 0xee; 0x65; 0x86].

Example block_zero_key :
  chacha20Block (zeros 32) 0 (zeros 12) = reference_block.
Proof. vm_compute. reflexivity. Qed.


(** *** The keystream block is 64 bytes *)

Lemma fold_left_preserves {A B : Type} (P : A -> Prop) (f : A -> B -> A)
  (l : list B) (a : A) :
  P a -> (forall a' x, P a' -> P (f a' x)) -> P (fold_left f l a).
Proof.
  intros Ha Hf; revert a Ha; induction l as [|x l IH]; intros a Ha; simpl; auto.
Qed.

Lemma is_byte_mod_256 (x : Z) : is_byte (x mod 256).
Proof. unfold is_byte. change (2 ^ 8) with 256. apply Z.mod_pos_bound; lia. Qed.

Lemma setUint32_le_length (buf : list Z) (off : nat) (v : Z) :
  List.length (setUint32_le buf off v) = List.length buf.
Proof. unfold setUint32_le. now rewrite !length_upd. Qed.

Lemma setUint32_le_bytes (buf : list Z) (off : nat) (v : Z) :
  bytes buf -> bytes (setUint32_le buf off v).
Proof.
  unfold setUint32_le, bytes; intros Hb.
  repeat apply Forall_upd; auto using is_byte_mod_256.
Qed.

Lemma serialize_length (working : list Z) :
  List.length (serialize working) = 64%nat.
Proof.
  unfold serialize.
  apply (fold_left_preserves (fun b => List.length b = 64%nat)).
  - apply length_zeros.
  - intros b i Hb. now rewrite setUint32_le_length.
Qed.

Lemma serialize_bytes (working : list Z) : bytes (serialize working).
Proof.
  unfold serialize. apply (fold_left_preserves bytes).
  - apply bytes_zeros.
  - intros b i Hb. now apply setUint32_le_bytes.
Qed.

Lemma chacha20Block_length (key : list Z) (counter : Z) (nonce : list Z) :
  List.length (chacha20Block key counter nonce) = 64%nat.
Proof. apply serialize_length. Qed.

Lemma chacha20Block_bytes (key : list Z) (counter : Z) (nonce : list Z) :
  bytes (chacha20Block key counter nonce).
Proof. apply serialize_bytes. Qed.

(** *** The operations of the source on words and bytes *)

Lemma is_word_add32 (x y : Z) : is_word (KeystreamSpec.add32 x y).
Proof. apply is_word_ToUint32. Qed.

Lemma is_word_lxor (x y : Z) : is_word x -> is_word y -> is_word (Z.lxor x y).
Proof. unfold is_word; intros; apply lxor_small; lia. Qed.

Lemma rotl_parts (w c : Z) :
  is_word w -> 0 < c < 32 ->
  0 <= w mod 2 ^ (32 - c) < 2 ^ (32 - c)
  /\ 0 <= w / 2 ^ (32 - c) < 2 ^ c.
Proof.
  unfold is_word; intros Hw Hc.
  assert (Hp : 0 < 2 ^ (32 - c)) by (apply Z.pow_pos_nonneg; lia).
  split.
  - apply Z.mod_pos_bound; lia.
  - split.
    + apply Z.div_pos; lia.
    + apply Z.div_lt_upper_bound; [lia|].
      rewrite <- Z.pow_add_r by lia.
      replace (32 - c + c) with 32 by lia. lia.
Qed.

Lemma is_word_rotl (w c : Z) :
  is_word w -> 0 < c < 32 -> is_word (KeystreamSpec.rotl w c).
Proof.
  intros Hw Hc. destruct (rotl_parts w c Hw Hc) as [Hlo Hhi].
  unfold is_word, KeystreamSpec.rotl.
  assert (Hq : 0 < 2 ^ c) by (apply Z.pow_pos_nonneg; lia).
  assert (E : 2 ^ 32 = 2 ^ (32 - c) * 2 ^ c).
  { rewrite <- Z.pow_add_r by lia. f_equal; lia. }
  rewrite E. nia.
Qed.

Lemma rotl32_bitxor (x y c : Z) :
  is_word x -> is_word y -> 0 < c < 32 ->
  rotl32 (bitxor x y) c = KeystreamSpec.rotl (Z.lxor x y) c.
Proof.
  intros Hx Hy Hc.
  pose proof (is_word_lxor x y Hx Hy) as Hw.
  destruct (rotl_parts _ c Hw Hc) as [Hlo Hhi].
  unfold rotl32.
  rewrite ushr_0, ToUint32_bitor, ToUint32_shl, ushr_div by lia.
  rewrite ToUint32_bitxor, (ToUint32_small x), (ToUint32_small y)
    by assumption.
  set (w := Z.lxor x y) in *.
  assert (Hc32 : 2 ^ c < 2 ^ 32) by (apply Z.pow_lt_mono_r; lia).
  rewrite (ToUint32_small (w / 2 ^ (32 - c))) by (unfold is_word; lia).
  assert (E : ToUint32 (w * 2 ^ c) = (w mod 2 ^ (32 - c)) * 2 ^ c).
  { unfold ToUint32.
    replace (2 ^ 32) with (2 ^ (32 - c) * 2 ^ c)
      by (rewrite <- Z.pow_add_r by lia; f_equal; lia).
    apply Z.mul_mod_distr_r.
    - apply Z.pow_nonzero; lia.
    - apply Z.pow_nonzero; lia. }
  rewrite E. unfold KeystreamSpec.rotl.
  apply (lor_disjoint _ _ c); [lia|assumption|].
  apply Z.mod_mul. apply Z.pow_nonzero; lia.
Qed.

Lemma le_word_bytes (b0 b1 b2 b3 : Z) :
  is_byte b0 -> is_byte b1 -> is_byte b2 -> is_byte b3 ->
  ushr (bitor (bitor (bitor b0 (shl b1 8)) (shl b2 16)) (shl b3 24)) 0
  = KeystreamSpec.le32 b0 b1 b2 b3.
Proof.
  unfold is_byte; intros H0 H1 H2 H3.
  rewrite ushr_0, !ToUint32_bitor, !ToUint32_shl by lia.
  rewrite !(ToUint32_small b0), !(ToUint32_small b1), !(ToUint32_small b2),
    !(ToUint32_small b3) by (unfold is_word; lia).
  rewrite !ToUint32_small by (unfold is_word; lia).
  unfold KeystreamSpec.le32.
  rewrite (Z.lor_comm b0), (lor_disjoint _ b0 8);
    [|lia|lia|apply Z.mod_mul; lia].
  rewrite (Z.lor_comm (_ + b0)), (lor_disjoint _ (_ + b0) 16);
    [|lia|lia|apply Z.mod_mul; lia].
  rewrite (Z.lor_comm (_ + (_ + b0))), (lor_disjoint _ (_ + (_ + b0)) 24);
    [|lia|lia|apply Z.mod_mul; lia].
  lia.
Qed.

(** *** [chacha20Block] against the keystream block of the design document *)

Definition state16 (st : list Z) : Prop :=
  List.length st = 16%nat /\ words st.

Lemma state16_inv (st : list Z) :
  state16 st ->
  exists s0 s1 s2 s3 s4 s5 s6 s7 s8 s9 s10 s11 s12 s13 s14 s15,
    st = [s0; s1; s2; s3; s4; s5; s6; s7; s8; s9; s10; s11; s12; s13; s14; s15]
    /\ is_word s0 /\ is_word s1 /\ is_word s2 /\ is_word s3
    /\ is_word s4 /\ is_word s5 /\ is_word s6 /\ is_word s7
    /\ is_word s8 /\ is_word s9 /\ is_word s10 /\ is_word s11
    /\ is_word s12 /\ is_word s13 /\ is_word s14 /\ is_word s15.
Proof.
  intros [Hlen Hw].
  do 16 (destruct st as [|? st]; [discriminate Hlen|]).
  destruct st; [|discriminate Hlen].
  unfold words in Hw.
  repeat match goal with
         | H : Forall _ (_ :: _) |- _ => inversion H; subst; clear H
         end.
  do 16 eexists. split; [reflexivity|].
  repeat (split; [assumption|]). assumption.
Qed.

Lemma u32_add (x y : Z) : ToUint32 (x + y) = KeystreamSpec.add32 x y.
Proof. reflexivity. Qed.

Lemma u32_rotl32_bitxor (x y c : Z) :
  is_word x -> is_word y -> 0 < c < 32 ->
  ToUint32 (rotl32 (bitxor x y) c) = KeystreamSpec.rotl (Z.lxor x y) c.
Proof.
  intros Hx Hy Hc. rewrite rotl32_bitxor by assumption.
  apply ToUint32_small, is_word_rotl; auto using is_word_lxor.
Qed.

Create HintDb word_db.
#[local] Hint Resolve is_word_add32 is_word_rotl is_word_lxor
  is_word_ToUint32 : word_db.
#[local] Hint Extern 1 (_ < _ < _) => lia : word_db.

Ltac word_side := first [ lia | auto 8 with word_db ].

Lemma quarterRound_refines (st : list Z) (a b c d : nat) :
  state16 st ->
  In (a, b, c, d) (KeystreamSpec.columns ++ KeystreamSpec.diagonals) ->
  quarterRound st a b c d = KeystreamSpec.quarter_at st (a, b, c, d).
Proof.
  intros Hst Hin.
  destruct (state16_inv st Hst)
    as (s0 & s1 & s2 & s3 & s4 & s5 & s6 & s7 & s8 & s9 & s10 & s11 & s12
        & s13 & s14 & s15 & -> & W0 & W1 & W2 & W3 & W4 & W5 & W6 & W7 & W8
        & W9 & W10 & W11 & W12 & W13 & W14 & W15).
  simpl in Hin.
  repeat (destruct Hin as [Hin|Hin]; [injection Hin as <- <- <- <-|]);
    try contradiction;
    cbv [quarterRound u32_set get upd nth KeystreamSpec.quarter_at
           KeystreamSpec.quarter];
    rewrite !u32_add;
    repeat (rewrite u32_rotl32_bitxor by word_side).
  all: reflexivity.
Qed.

Lemma quarter_at_state16 (st : list Z) (ix : nat * nat * nat * nat) :
  state16 st ->
  In ix (KeystreamSpec.columns ++ KeystreamSpec.diagonals) ->
  state16 (KeystreamSpec.quarter_at st ix).
Proof.
  intros Hst Hin.
  destruct (state16_inv st Hst)
    as (s0 & s1 & s2 & s3 & s4 & s5 & s6 & s7 & s8 & s9 & s10 & s11 & s12
        & s13 & s14 & s15 & -> & W0 & W1 & W2 & W3 & W4 & W5 & W6 & W7 & W8
        & W9 & W10 & W11 & W12 & W13 & W14 & W15).
  simpl in Hin.
  repeat (destruct Hin as [Hin|Hin]; [subst ix|]); try contradiction;
    cbv [KeystreamSpec.quarter_at KeystreamSpec.quarter upd nth];
    (split; [reflexivity|]); unfold words;
    repeat (constructor; [auto 8 with word_db|]); constructor.
Qed.

Lemma fold_left_step {A B : Type} (f : A -> B -> A) (x : B) (l : list B)
  (a : A) :
  fold_left f (x :: l) a = fold_left f l (f a x).
Proof. reflexivity. Qed.

Lemma round_groups :
  KeystreamSpec.columns ++ KeystreamSpec.diagonals
  = [(0, 4, 8, 12); (1, 5, 9, 13); (2, 6, 10, 14); (3, 7, 11, 15);
     (0, 5, 10, 15); (1, 6, 11, 12); (2, 7, 8, 13); (3, 4, 9, 14)]%nat.
Proof. reflexivity. Qed.

Lemma In_round_groups (ix : nat * nat * nat * nat) :
  In ix [(0, 4, 8, 12); (1, 5, 9, 13); (2, 6, 10, 14); (3, 7, 11, 15);
         (0, 5, 10, 15); (1, 6, 11, 12); (2, 7, 8, 13); (3, 4, 9, 14)]%nat ->
  In ix (KeystreamSpec.columns ++ KeystreamSpec.diagonals).
Proof. rewrite round_groups. exact (fun H => H). Qed.

Ltac in_groups :=
  apply In_round_groups;
  repeat first [ left; reflexivity | right ].

Ltac refine_quarter H :=
  match goal with
  | |- context [quarterRound ?s ?a ?b ?c ?d] =>
      lazymatch s with
      | context [quarterRound] => fail
      | _ =>
          rewrite (quarterRound_refines s a b c d H) by in_groups;
          let H' := fresh in
          assert (H' : state16 (KeystreamSpec.quarter_at s (a, b, c, d)))
            by (apply quarter_at_state16; [exact H|in_groups]);
          clear H; rename H' into H
      end
  end.

Lemma double_round_refines (st : list Z) :
  state16 st ->
  double_round st = KeystreamSpec.double_round st
  /\ state16 (KeystreamSpec.double_round st).
Proof.
  intros Hst.
  unfold double_round, KeystreamSpec.double_round.
  rewrite round_groups, !fold_left_step.
  change (fold_left KeystreamSpec.quarter_at [] ?x) with x.
  do 8 refine_quarter Hst.
  split; [reflexivity|exact Hst].
Qed.

Lemma rounds_refine (n : nat) (st : list Z) :
  state16 st ->
  Nat.iter n double_round st = Nat.iter n KeystreamSpec.double_round st
  /\ state16 (Nat.iter n KeystreamSpec.double_round st).
Proof.
  intros Hst. induction n as [|n [IHeq IHst]].
  - split; [reflexivity|exact Hst].
  - rewrite !Nat.iter_succ, IHeq. apply double_round_refines, IHst.
Qed.

Lemma is_word_le32 (b0 b1 b2 b3 : Z) :
  is_byte b0 -> is_byte b1 -> is_byte b2 -> is_byte b3 ->
  is_word (KeystreamSpec.le32 b0 b1 b2 b3).
Proof. unfold is_byte, is_word, KeystreamSpec.le32; lia. Qed.

Lemma u32_le_word (b0 b1 b2 b3 : Z) :
  is_byte b0 -> is_byte b1 -> is_byte b2 -> is_byte b3 ->
  ToUint32
    (ushr (bitor (bitor (bitor b0 (shl b1 8)) (shl b2 16)) (shl b3 24)) 0)
  = KeystreamSpec.le32 b0 b1 b2 b3.
Proof.
  intros. rewrite le_word_bytes by assumption.
  now apply ToUint32_small, is_word_le32.
Qed.

Ltac invert_Forall :=
  repeat match goal with
         | H : Forall _ (_ :: _) |- _ => inversion H; subst; clear H
         end.

Lemma init_state_refines (key : list Z) (counter : Z) (nonce : list Z) :
  List.length key = 32%nat -> bytes key ->
  List.length nonce = 12%nat -> bytes nonce ->
  is_word counter ->
  init_state key counter nonce
  = KeystreamSpec.initial_state key counter nonce
  /\ state16 (KeystreamSpec.initial_state key counter nonce).
Proof.
  intros Hk Bk Hn Bn Hc.
  do 32 (destruct key as [|? key]; [discriminate Hk|]).
  destruct key; [|discriminate Hk].
  do 12 (destruct nonce as [|? nonce]; [discriminate Hn|]).
  destruct nonce; [|discriminate Hn].
  unfold bytes in *. invert_Forall.
  cbv [init_state load_words fold_left seq zeros repeat u32_set upd get nth
         le_word Nat.mul Nat.add constants
         KeystreamSpec.initial_state KeystreamSpec.le_words
         KeystreamSpec.sigma app].
  rewrite (ushr_0 counter), !(ToUint32_small counter) by assumption.
  rewrite !u32_le_word by (assumption || (unfold is_byte; lia)).
  split.
  - reflexivity.
  - split; [reflexivity|]. unfold words.
    repeat (constructor;
            [first [assumption | apply is_word_le32; assumption
                   | unfold is_word; lia]|]).
    constructor.
Qed.


Lemma u32_ushr_add (x y : Z) :
  ToUint32 (ushr (x + y) 0) = KeystreamSpec.add32 x y.
Proof. rewrite ushr_0. apply ToUint32_idem. Qed.

Lemma add_state_refines (state working : list Z) :
  state16 state -> state16 working ->
  add_state state working = KeystreamSpec.add_words working state
  /\ state16 (KeystreamSpec.add_words working state).
Proof.
  intros Hs Hw.
  destruct (state16_inv state Hs)
    as (s0 & s1 & s2 & s3 & s4 & s5 & s6 & s7 & s8 & s9 & s10 & s11 & s12
        & s13 & s14 & s15 & -> & _).
  destruct (state16_inv working Hw)
    as (w0 & w1 & w2 & w3 & w4 & w5 & w6 & w7 & w8 & w9 & w10 & w11 & w12
        & w13 & w14 & w15 & -> & _).
  cbv [add_state fold_left seq u32_set upd get nth KeystreamSpec.add_words].
  rewrite !u32_ushr_add.
  split; [reflexivity|].
  split; [reflexivity|]. unfold words.
  repeat (constructor; [apply is_word_add32|]). constructor.
Qed.

Lemma le_bytes_ToUint32 (w : Z) :
  is_word w ->
  [ToUint32 w mod 256; (ToUint32 w / 2 ^ 8) mod 256;
   (ToUint32 w / 2 ^ 16) mod 256; (ToUint32 w / 2 ^ 24) mod 256]
  = KeystreamSpec.le_bytes w.
Proof. intros Hw. rewrite (ToUint32_small w Hw). reflexivity. Qed.

Lemma serialize_refines (working : list Z) :
  state16 working ->
  serialize working = flat_map KeystreamSpec.le_bytes working.
Proof.
  intros Hw.
  destruct (state16_inv working Hw)
    as (w0 & w1 & w2 & w3 & w4 & w5 & w6 & w7 & w8 & w9 & w10 & w11 & w12
        & w13 & w14 & w15 & -> & W0 & W1 & W2 & W3 & W4 & W5 & W6 & W7 & W8
        & W9 & W10 & W11 & W12 & W13 & W14 & W15).
  cbv [serialize fold_left seq zeros repeat setUint32_le upd get nth
         Nat.mul Nat.add flat_map app].
  rewrite <- !le_bytes_ToUint32 by assumption.
  reflexivity.
Qed.

(** [chacha20Block] computes the keystream block of the design document. *)
Lemma chacha20Block_refines (key : list Z) (counter : Z) (nonce : list Z) :
  List.length key = 32%nat -> bytes key ->
  List.length nonce = 12%nat -> bytes nonce ->
  is_word counter ->
  chacha20Block key counter nonce
  = KeystreamSpec.keystream_block key counter nonce.
Proof.
  intros Hk Bk Hn Bn Hc.
  destruct (init_state_refines key counter nonce Hk Bk Hn Bn Hc) as [E0 S0].
  destruct (rounds_refine 10 _ S0) as [E1 S1].
  destruct (add_state_refines _ _ S0 S1) as [E2 S2].
  unfold chacha20Block, KeystreamSpec.keystream_block.
  cbv zeta.
  rewrite E0, E1, E2.
  apply serialize_refines, S2.
Qed.

(** *** What the encryption loop writes *)

(** The keystream byte at offset [j] of the stream: byte [j mod 64] of
    block [j / 64]. *)
Definition keystream_byte (key nonce : list Z) (j : nat) : Z :=
  get (chacha20Block key (Z.of_nat (j / 64)) nonce) (j mod 64).

Lemma keystream_byte_is_byte (key nonce : list Z) (j : nat) :
  is_byte (keystream_byte key nonce j).
Proof.
  unfold keystream_byte. apply Forall_get.
  - apply chacha20Block_bytes.
  - rewrite chacha20Block_length. apply Nat.mod_upper_bound. lia.
Qed.

Lemma xor_block_S (plaintext block : list Z) (pos n : nat)
  (ciphertext : list Z) :
  xor_block plaintext block pos (S n) ciphertext =
  u8_set (xor_block plaintext block pos n ciphertext) (pos + n)
         (bitxor (get plaintext (pos + n)) (get block n)).
Proof.
  unfold xor_block. rewrite seq_S, fold_left_app. reflexivity.
Qed.

Lemma xor_block_length (plaintext block : list Z) (pos n : nat)
  (ciphertext : list Z) :
  List.length (xor_block plaintext block pos n ciphertext) =
  List.length ciphertext.
Proof.
  induction n as [|n IH]; [reflexivity|].
  rewrite xor_block_S. unfold u8_set. now rewrite length_upd.
Qed.

Lemma xor_block_get (plaintext block : list Z) (pos n : nat)
  (ciphertext : list Z) (j : nat) :
  (pos + n <= List.length ciphertext)%nat ->
  get (xor_block plaintext block pos n ciphertext) j =
  if (pos <=? j)%nat && (j <? pos + n)%nat
  then ToUint8 (bitxor (get plaintext j) (get block (j - pos)))
  else get ciphertext j.
Proof.
  induction n as [|n IH]; intros Hn.
  - simpl. destruct (Nat.leb_spec pos j), (Nat.ltb_spec j (pos + 0));
      simpl; auto; lia.
  - rewrite xor_block_S. unfold u8_set.
    rewrite get_upd by (rewrite xor_block_length; lia).
    rewrite IH by lia.
    destruct (Nat.eqb_spec (pos + n) j) as [<-|Hne].
    + replace (pos + n - pos)%nat with n by lia.
      destruct (Nat.leb_spec pos (pos + n)),
        (Nat.ltb_spec (pos + n) (pos + S n)); simpl; auto; lia.
    + destruct (Nat.leb_spec pos j), (Nat.ltb_spec j (pos + n)),
        (Nat.ltb_spec j (pos + S n)); simpl; auto; lia.
Qed.

Lemma encrypt_loop_spec (key nonce plaintext : list Z) :
  forall (fuel : nat) (ciphertext : list Z) (c pos : nat),
    List.length ciphertext = List.length plaintext ->
    (pos <= List.length plaintext)%nat ->
    ((pos < List.length plaintext)%nat -> pos = (64 * c)%nat) ->
    (List.length plaintext - pos <= 64 * fuel)%nat ->
    exists out,
      encrypt_loop fuel key nonce plaintext ciphertext (Z.of_nat c) pos
      = Normal out
      /\ List.length out = List.length plaintext
      /\ forall j, (j < List.length plaintext)%nat ->
           get out j =
           if (j <? pos)%nat then get ciphertext j
           else ToUint8 (bitxor (get plaintext j)
                                (keystream_byte key nonce j)).
Proof.
  induction fuel as [|fuel IH]; intros ct c pos Hlen Hpos Hc Hfuel.
  - assert (pos = List.length plaintext) by lia. subst pos.
    cbn [encrypt_loop]. rewrite Nat.ltb_irrefl.
    exists ct; repeat split; auto.
    intros j Hj. destruct (Nat.ltb_spec j (List.length plaintext)); auto; lia.
  - cbn [encrypt_loop].
    destruct (Nat.ltb_spec pos (List.length plaintext)) as [Hlt|Hge].
    + specialize (Hc Hlt).
      set (bs := Nat.min 64 (List.length plaintext - pos)).
      set (block := chacha20Block key (Z.of_nat c) nonce).
      replace (Z.of_nat c + 1) with (Z.of_nat (S c)) by lia.
      destruct (IH (xor_block plaintext block pos bs ct) (S c) (pos + bs)%nat)
        as (out & Hrun & Hout & Hget).
      * now rewrite xor_block_length.
      * subst bs; lia.
      * subst bs; lia.
      * subst bs; lia.
      * exists out; repeat split; auto.
        intros j Hj. rewrite (Hget j Hj).
        rewrite xor_block_get by (subst bs; lia).
        destruct (Nat.ltb_spec j (pos + bs)), (Nat.leb_spec pos j),
          (Nat.ltb_spec j pos); simpl; auto; try lia.
        unfold keystream_byte.
        assert (Hj64 : (j - pos < 64)%nat) by (subst bs; lia).
        assert (Hdec : j = (64 * c + (j - pos))%nat) by lia.
        rewrite <- (Nat.div_unique j 64 c (j - pos) Hj64 Hdec).
        rewrite <- (Nat.mod_unique j 64 c (j - pos) Hj64 Hdec).
        reflexivity.
    + exists ct; repeat split; auto.
      intros j Hj. destruct (Nat.ltb_spec j pos); auto; lia.
Qed.

(** [chacha20Encrypt] completes normally on every input, with a result
    as long as the input whose byte [j] is the input's byte [j] xored
    with keystream byte [j]. *)
Lemma chacha20Encrypt_spec (key nonce plaintext : list Z) :
  exists out,
    chacha20Encrypt key nonce plaintext = Normal out
    /\ List.length out = List.length plaintext
    /\ forall j, (j < List.length plaintext)%nat ->
         get out j =
         ToUint8 (bitxor (get plaintext j) (keystream_byte key nonce j)).
Proof.
  unfold chacha20Encrypt.
  destruct (encrypt_loop_spec key nonce plaintext (List.length plaintext)
              (zeros (List.length plaintext)) 0 0)
    as (out & Hrun & Hlen & Hget).
  - apply length_zeros.
  - lia.
  - lia.
  - lia.
  - exists out; repeat split; auto.
Qed.

(** C1. For every key and nonce (in particular every 32-byte key and
    12-byte nonce) and every byte sequence [data], of any length,
    [chacha20Encrypt] returns an output of exactly the length of [data],
    and applying it to that output with the same key and nonce returns
    [data]. *)
Theorem chacha20Encrypt_roundtrip (key nonce data : list Z) :
  bytes data ->
  exists ct,
    chacha20Encrypt key nonce data = Normal ct
    /\ List.length ct = List.length data
    /\ chacha20Encrypt key nonce ct = Normal data.
Proof.
  intros Hdata.
  destruct (chacha20Encrypt_spec key nonce data) as (ct & Hct & Hlen & Hget).
  exists ct; repeat split; auto.
  destruct (chacha20Encrypt_spec key nonce ct) as (pt & Hpt & Hlen' & Hget').
  rewrite Hpt. f_equal.
  apply list_eq_get; [congruence|].
  intros j Hj.
  assert (Hjd : (j < List.length data)%nat) by congruence.
  assert (Hjc : (j < List.length ct)%nat) by congruence.
  pose proof (keystream_byte_is_byte key nonce j) as Hk.
  pose proof (Forall_get _ _ _ Hdata Hjd) as Hd.
  rewrite (Hget' j Hjc), (Hget j Hjd).
  rewrite (bitxor_bytes (get data j)) by assumption.
  rewrite bitxor_bytes by (auto using is_byte_lxor).
  apply lxor_cancel.
Qed.

Lemma chacha20Encrypt_roundtrip_witness :
  bytes [104; 105; 33]
  /\ exists ct,
      chacha20Encrypt (zeros 32) (zeros 12) [104; 105; 33] = Normal ct
      /\ List.length ct = List.length [104; 105; 33]
      /\ chacha20Encrypt (zeros 32) (zeros 12) ct = Normal [104; 105; 33].
Proof.
  assert (H : bytes [104; 105; 33])
    by (repeat constructor; unfold is_byte; lia).
  split; [exact H|].
  exact (chacha20Encrypt_roundtrip (zeros 32) (zeros 12) [104; 105; 33] H).
Defined.


(** C2. For every 32-byte key, 12-byte nonce and uint32 block counter,
    [chacha20Block] returns the 64-byte keystream block of the design
    document: the state of 4 constant words, 8 little-endian key words,
    the counter and 3 little-endian nonce words, taken through 10 double
    rounds of the quarter round (additions modulo [2^32], xor, left
    rotations by 16, 12, 8, 7) over the column and diagonal index groups,
    added word-wise modulo [2^32] to the initial state and serialized
    little-endian. For the all-zero key and nonce and counter 0 it is the
    standard ChaCha20 reference block. *)
Theorem chacha20Block_keystream (key : list Z) (counter : Z)
  (nonce : list Z) :
  List.length key = 32%nat -> bytes key ->
  List.length nonce = 12%nat -> bytes nonce ->
  is_word counter ->
  chacha20Block key counter nonce
  = KeystreamSpec.keystream_block key counter nonce
  /\ List.length (chacha20Block key counter nonce) = 64%nat
  /\ chacha20Block (zeros 32) 0 (zeros 12) = reference_block.
Proof.
  intros Hk Bk Hn Bn Hc. split; [|split].
  - now apply chacha20Block_refines.
  - apply chacha20Block_length.
  - exact block_zero_key.
Qed.

(** The key [00 01 .. 1f], the nonce and the counter of the block
    function example of RFC 8439, section 2.3.2. *)
Definition sample_key : list Z :=
  [0; 1; 2; 3; 4; 5; 6; 7; 8; 9; 10; 11; 12; 13; 14; 15;
   16; 17; 18; 19; 20; 21; 22; 23; 24; 25; 26; 27; 28; 29; 30; 31].

Definition sample_nonce : list Z :=
  [0; 0; 0; 9; 0; 0; 0; 0x4a; 0; 0; 0; 0].

Lemma bytes_dec_true (l : list Z) :
  forallb (fun b => (0 <=? b) && (b <? 256)) l = true -> bytes l.
Proof.
  unfold bytes; induction l as [|b l IH]; simpl; intros H; constructor.
  - apply andb_prop in H. destruct H as [H _].
    apply andb_prop in H. destruct H as [H1 H2].
    unfold is_byte. change (2 ^ 8) with 256.
    apply Z.leb_le in H1. apply Z.ltb_lt in H2. lia.
  - apply IH. apply andb_prop in H. tauto.
Qed.

Lemma chacha20Block_keystream_witness :
  chacha20Block sample_key 1 sample_nonce
  = KeystreamSpec.keystream_block sample_key 1 sample_nonce
  /\ List.length (chacha20Block sample_key 1 sample_nonce) = 64%nat
  /\ chacha20Block (zeros 32) 0 (zeros 12) = reference_block.
Proof.
  apply chacha20Block_keystream.
  - reflexivity.
  - apply bytes_dec_true. reflexivity.
  - reflexivity.
  - apply bytes_dec_true. reflexivity.
  - unfold is_word. lia.
Defined.

(** *** Keys and nonces of any length *)

(** [l] cut or zero-padded to [n] bytes. *)
Definition fit (n : nat) (l : list Z) : list Z := firstn n (l ++ zeros n).

Lemma get_app_zeros (l : list Z) (n i : nat) :
  get (l ++ zeros n) i = get l i.
Proof.
  unfold get. destruct (Nat.ltb_spec i (List.length l)) as [Hlt|Hge].
  - now apply app_nth1.
  - rewrite app_nth2 by assumption.
    rewrite (nth_overflow l) by assumption. apply get_zeros.
Qed.

Lemma get_fit (n : nat) (l : list Z) (i : nat) :
  (i < n)%nat -> get (fit n l) i = get l i.
Proof.
  intros Hi. unfold fit. rewrite <- (get_app_zeros l n i).
  unfold get. generalize (l ++ zeros n). clear l.
  revert i Hi. induction n as [|n IH]; intros i Hi l; [lia|].
  destruct l as [|h t]; [destruct i; reflexivity|].
  destruct i as [|i]; simpl; [reflexivity|]. apply IH. lia.
Qed.

Lemma length_fit (n : nat) (l : list Z) : List.length (fit n l) = n.
Proof.
  unfold fit. rewrite length_firstn, length_app, length_zeros. lia.
Qed.

Lemma init_state_fit (key : list Z) (counter : Z) (nonce : list Z) :
  init_state key counter nonce
  = init_state (fit 32 key) counter (fit 12 nonce).
Proof.
  cbv [init_state load_words fold_left seq le_word Nat.mul Nat.add].
  rewrite !(get_fit 32 key), !(get_fit 12 nonce) by lia.
  reflexivity.
Qed.

Lemma chacha20Block_fit (key : list Z) (counter : Z) (nonce : list Z) :
  chacha20Block key counter nonce
  = chacha20Block (fit 32 key) counter (fit 12 nonce).
Proof.
  unfold chacha20Block. now rewrite <- init_state_fit.
Qed.

Lemma encrypt_loop_fit (key nonce plaintext : list Z) :
  forall (fuel : nat) (ciphertext : list Z) (counter : Z) (pos : nat),
    encrypt_loop fuel key nonce plaintext ciphertext counter pos
    = encrypt_loop fuel (fit 32 key) (fit 12 nonce) plaintext ciphertext
                   counter pos.
Proof.
  induction fuel as [|fuel IH]; intros ct c pos; cbn [encrypt_loop].
  - reflexivity.
  - destruct (pos <? List.length plaintext)%nat; [|reflexivity].
    rewrite <- chacha20Block_fit. apply IH.
Qed.

(** C8, as the code has it. [chacha20Encrypt] checks neither length and
    never throws: for every key, nonce and input it returns an output of
    the input's length, the one it returns for the key cut or zero-padded
    to 32 bytes and the nonce cut or zero-padded to 12 bytes. *)
Theorem chacha20Encrypt_any_key_material (key nonce data : list Z) :
  (exists out,
      chacha20Encrypt key nonce data = Normal out
      /\ List.length out = List.length data)
  /\ (forall message, chacha20Encrypt key nonce data <> Throw message)
  /\ chacha20Encrypt key nonce data
     = chacha20Encrypt (fit 32 key) (fit 12 nonce) data.
Proof.
  destruct (chacha20Encrypt_spec key nonce data) as (out & Hrun & Hlen & _).
  split; [|split].
  - exists out; auto.
  - intros message. rewrite Hrun. discriminate.
  - apply encrypt_loop_fit.
Qed.

(** C8 fails on the code: with an empty key and an empty nonce the
    one-byte input [01] is encrypted to [77] (hexadecimal), the result for
    the all-zero key and nonce; nothing is thrown. *)
Lemma chacha20Encrypt_empty_key_returns :
  List.length ([] : list Z) <> 32%nat
  /\ chacha20Encrypt [] [] [1] = Normal [0x77]
  /\ chacha20Encrypt [] [] [1] = chacha20Encrypt (zeros 32) (zeros 12) [1]
  /\ forall message, chacha20Encrypt [] [] [1] <> Throw message.
Proof.
  split; [discriminate|].
  assert (E : chacha20Encrypt [] [] [1] = Normal [0x77])
    by (vm_compute; reflexivity).
  split; [exact E|]. split.
  - vm_compute; reflexivity.
  - intros message. rewrite E. discriminate.
Qed.


(** *** The stream: blocks, counters and the final partial block *)

(** [chacha20Encrypt] xors byte [j] of its input with byte [j mod 64] of
    the keystream block of counter [j / 64]: the blocks are numbered from
    0, one per 64 bytes of input, and the last one is used as far as the
    input goes. The output is again an array of bytes. *)
Theorem chacha20Encrypt_keystream (key nonce data : list Z) :
  bytes data ->
  exists out,
    chacha20Encrypt key nonce data = Normal out
    /\ List.length out = List.length data
    /\ bytes out
    /\ forall j, (j < List.length data)%nat ->
         get out j
         = Z.lxor (get data j)
             (get (chacha20Block key (Z.of_nat (j / 64)) nonce) (j mod 64)).
Proof.
  intros Hdata.
  destruct (chacha20Encrypt_spec key nonce data) as (out & Hrun & Hlen & Hget).
  assert (Hxor : forall j, (j < List.length data)%nat ->
            get out j = Z.lxor (get data j) (keystream_byte key nonce j)).
  { intros j Hj. rewrite (Hget j Hj). apply bitxor_bytes.
    - now apply Forall_get.
    - apply keystream_byte_is_byte. }
  exists out. split; [exact Hrun|]. split; [exact Hlen|]. split.
  - apply Forall_of_get. intros j Hj. rewrite Hlen in Hj.
    rewrite (Hxor j Hj). apply is_byte_lxor.
    + now apply Forall_get.
    + apply keystream_byte_is_byte.
  - exact Hxor.
Qed.

Lemma chacha20Encrypt_keystream_witness :
  bytes sample_key
  /\ exists out,
      chacha20Encrypt sample_key sample_nonce sample_key = Normal out
      /\ List.length out = List.length sample_key
      /\ bytes out
      /\ forall j, (j < List.length sample_key)%nat ->
           get out j
           = Z.lxor (get sample_key j)
               (get (chacha20Block sample_key (Z.of_nat (j / 64))
                       sample_nonce) (j mod 64)).
Proof.
  assert (H : bytes sample_key) by (apply bytes_dec_true; reflexivity).
  split; [exact H|].
  exact (chacha20Encrypt_keystream sample_key sample_nonce sample_key H).
Defined.

(** Encrypting a longer input does not change what was produced for a
    prefix of it: the stream can be cut anywhere. *)
Theorem chacha20Encrypt_prefix (key nonce data more : list Z) :
  exists out out',
    chacha20Encrypt key nonce data = Normal out
    /\ chacha20Encrypt key nonce (data ++ more) = Normal out'
    /\ firstn (List.length data) out' = out.
Proof.
  destruct (chacha20Encrypt_spec key nonce data) as (out & Hrun & Hlen & Hget).
  destruct (chacha20Encrypt_spec key nonce (data ++ more))
    as (out' & Hrun' & Hlen' & Hget').
  exists out, out'. split; [exact Hrun|]. split; [exact Hrun'|].
  rewrite length_app in Hlen'.
  apply list_eq_get.
  - rewrite length_firstn, Hlen, Hlen'. lia.
  - intros j Hj. rewrite length_firstn, Hlen' in Hj.
    assert (Hjd : (j < List.length data)%nat) by lia.
    unfold get at 1. rewrite nth_firstn.
    destruct (Nat.ltb_spec j (List.length data)); [|lia].
    fold (get out' j).
    rewrite Hget' by (rewrite length_app; lia).
    rewrite (Hget j Hjd).
    unfold get at 1. rewrite app_nth1 by assumption. reflexivity.
Qed.

(** *** The block function on any input *)

Lemma init_state_counter (key : list Z) (counter k : Z) (nonce : list Z) :
  init_state key (counter + k * 2 ^ 32) nonce = init_state key counter nonce.
Proof.
  unfold init_state.
  assert (E : ushr (counter + k * 2 ^ 32) 0 = ushr counter 0).
  { rewrite !ushr_0. unfold ToUint32. apply Z.mod_add. lia. }
  now rewrite E.
Qed.

(** Whatever the key, the nonce and the counter are, [chacha20Block]
    returns 64 bytes, and it takes the counter modulo [2^32]: block
    [counter + k * 2^32] is block [counter]. *)
Theorem chacha20Block_counter_wraps (key : list Z) (counter k : Z)
  (nonce : list Z) :
  List.length (chacha20Block key counter nonce) = 64%nat
  /\ bytes (chacha20Block key counter nonce)
  /\ chacha20Block key (counter + k * 2 ^ 32) nonce
     = chacha20Block key counter nonce.
Proof.
  split; [apply chacha20Block_length|].
  split; [apply chacha20Block_bytes|].
  unfold chacha20Block. now rewrite init_state_counter.
Qed.

(** *** [rotl32] *)

Lemma rotl32_low (v c : Z) :
  0 < c < 32 -> rotl32 v c = KeystreamSpec.rotl (ToUint32 v) c.
Proof.
  intros Hc.
  pose proof (is_word_ToUint32 v) as Hw.
  destruct (rotl_parts _ c Hw Hc) as [Hlo Hhi].
  unfold rotl32.
  rewrite ushr_0, ToUint32_bitor, ToUint32_shl, ushr_div by lia.
  set (w := ToUint32 v) in *.
  assert (Hc32 : 2 ^ c < 2 ^ 32) by (apply Z.pow_lt_mono_r; lia).
  rewrite (ToUint32_small (w / 2 ^ (32 - c))) by (unfold is_word; lia).
  assert (E : ToUint32 (w * 2 ^ c) = (w mod 2 ^ (32 - c)) * 2 ^ c).
  { unfold ToUint32.
    replace (2 ^ 32) with (2 ^ (32 - c) * 2 ^ c)
      by (rewrite <- Z.pow_add_r by lia; f_equal; lia).
    apply Z.mul_mod_distr_r.
    - apply Z.pow_nonzero; lia.
    - apply Z.pow_nonzero; lia. }
  rewrite E. unfold KeystreamSpec.rotl.
  apply (lor_disjoint _ _ c); [lia|assumption|].
  apply Z.mod_mul. apply Z.pow_nonzero; lia.
Qed.

Lemma rotl_inverse (w c : Z) :
  is_word w -> 0 < c < 32 ->
  KeystreamSpec.rotl (KeystreamSpec.rotl w c) (32 - c) = w.
Proof.
  intros Hw Hc. destruct (rotl_parts w c Hw Hc) as [Hlo Hhi].
  unfold KeystreamSpec.rotl.
  replace (32 - (32 - c)) with c by lia.
  set (P := 2 ^ (32 - c)) in *. set (Q := 2 ^ c) in *.
  assert (HP : 0 < P) by (apply Z.pow_pos_nonneg; lia).
  assert (HQ : 0 < Q) by (apply Z.pow_pos_nonneg; lia).
  assert (E1 : (w mod P * Q + w / P) mod Q = w / P).
  { rewrite Z.add_comm, Z.mod_add by lia. apply Z.mod_small. lia. }
  assert (E2 : (w mod P * Q + w / P) / Q = w mod P).
  { rewrite Z.div_add_l by lia. rewrite (Z.div_small (w / P) Q) by lia.
    lia. }
  rewrite E1, E2.
  pose proof (Z.div_mod w P) as D. lia.
Qed.

(** [rotl32(v, c)], for a shift count from 1 to 31, is the left rotation
    by [c] bits of the low 32 bits of [v]: an unsigned 32-bit word, which
    [rotl32(_, 32 - c)] rotates back. *)
Theorem rotl32_rotates (v c : Z) :
  0 < c < 32 ->
  rotl32 v c = KeystreamSpec.rotl (ToUint32 v) c
  /\ is_word (rotl32 v c)
  /\ rotl32 (rotl32 v c) (32 - c) = ToUint32 v.
Proof.
  intros Hc. pose proof (is_word_ToUint32 v) as Hw.
  rewrite (rotl32_low v c Hc).
  split; [reflexivity|]. split; [now apply is_word_rotl|].
  rewrite rotl32_low by lia.
  rewrite (ToUint32_small (KeystreamSpec.rotl (ToUint32 v) c))
    by (now apply is_word_rotl).
  now apply rotl_inverse.
Qed.

Lemma rotl32_rotates_witness :
  0 < 7 < 32
  /\ rotl32 (-1234567) 7 = KeystreamSpec.rotl (ToUint32 (-1234567)) 7
  /\ is_word (rotl32 (-1234567) 7)
  /\ rotl32 (rotl32 (-1234567) 7) (32 - 7) = ToUint32 (-1234567).
Proof.
  assert (H : 0 < 7 < 32) by lia.
  split; [exact H|]. exact (rotl32_rotates (-1234567) 7 H).
Defined.

(** *** [quarterRound] *)




End ChaCha20.

(** ** [frontend/utils/bytes.ts]

    JavaScript strings are modelled as [string]s of 8-bit characters: the
    code units below 256. The hexadecimal strings handled here are ASCII. *)
Module Bytes.
Import JS.

(** The digit of value [d] (below 16) that [Number.prototype.toString]
    prints: [0-9], then lowercase [a-f]. *)
Definition hex_digit (d : Z) : ascii :=
  if d <? 10 then ascii_of_nat (48 + Z.to_nat d)
  else ascii_of_nat (87 + Z.to_nat d).

Fixpoint toString16_digits (fuel : nat) (n : Z) (acc : string) : string :=
  match fuel with
  | O => acc
  | S fuel' =>
      let acc := String (hex_digit (n mod 16)) acc in
      if n / 16 =? 0 then acc else toString16_digits fuel' (n / 16) acc
  end.

(** [n.toString(16)] for an integer [n >= 0] (the elements of a
    [Uint8Array] are such): the hexadecimal digits of [n], most
    significant first, [0] for zero. A number with [k] binary digits has
    at most [k] hexadecimal ones. *)
Definition toString16 (n : Z) : string :=
  toString16_digits (S (Z.to_nat (Z.log2 n))) n EmptyString.

Fixpoint repeat_char (c : ascii) (n : nat) : string :=
  match n with
  | O => EmptyString
  | S n' => String c (repeat_char c n')
  end.

(** [s.padStart(targetLength, fill)] for a one-character [fill]. *)
Definition padStart (targetLength : nat) (fill : ascii) (s : string)
  : string :=
  String.append (repeat_char fill (targetLength - String.length s)) s.

(** [bytes.map((b) => b.toString(16).padStart(2, "0"))], per element. *)
Definition byte_hex (b : Z) : string := padStart 2 "0"%char (toString16 b).

(** ["0x" + Array.from(bytes).map(...).join("")] *)
Definition bytesToHex (bytes : list Z) : string :=
  String.append "0x" (String.concat "" (map byte_hex bytes)).

(** [s.startsWith(p)] *)
Definition startsWith (s p : string) : bool := String.prefix p s.

(** [s.slice(a)] and [s.slice(a, b)] for [0 <= a] and [0 <= b]. *)
Definition slice_from (s : string) (a : nat) : string :=
  substring a (String.length s - a) s.

Definition slice (s : string) (a b : nat) : string :=
  substring a (b - a) s.

(** White space that [parseInt] skips, among the characters below 256. *)
Definition is_white_space (c : ascii) : bool :=
  let n := nat_of_ascii c in
  (Nat.eqb n 9 || Nat.eqb n 10 || Nat.eqb n 11 || Nat.eqb n 12
   || Nat.eqb n 13 || Nat.eqb n 32 || Nat.eqb n 160)%bool.

Fixpoint trim_start (s : string) : string :=
  match s with
  | String c s' => if is_white_space c then trim_start s' else s
  | EmptyString => EmptyString
  end.

(** The value of a character as a digit: [0-9], [a-z] and [A-Z] stand
    for 0 to 35. *)
Definition digit_value (c : ascii) : option Z :=
  let n := Z.of_nat (nat_of_ascii c) in
  if (48 <=? n) && (n <=? 57) then Some (n - 48)
  else if (97 <=? n) && (n <=? 122) then Some (n - 87)
  else if (65 <=? n) && (n <=? 90) then Some (n - 55)
  else None.

(** The value of the longest prefix of [s] made of digits of the radix;
    [None] when that prefix is empty. *)
Fixpoint parse_digits (radix : Z) (s : string) (acc : option Z)
  : option Z :=
  match s with
  | String c s' =>
      match digit_value c with
      | Some d =>
          if d <? radix then
            parse_digits radix s'
              (Some (match acc with Some a => a * radix + d | None => d end))
          else acc
      | None => acc
      end
  | EmptyString => acc
  end.

Definition strip_sign (s : string) : Z * string :=
  match s with
  | String c s' =>
      if Ascii.eqb c "-" then (-1, s')
      else if Ascii.eqb c "+" then (1, s')
      else (1, s)
  | EmptyString => (1, s)
  end.

Definition strip_0x (s : string) : string :=
  match s with
  | String c0 (String c1 s') =>
      if (Ascii.eqb c0 "0" && (Ascii.eqb c1 "x" || Ascii.eqb c1 "X"))%bool
      then s' else s
  | _ => s
  end.

(** [parseInt(s, radix)] for a radix from 2 to 36; [None] is [NaN]. *)
Definition parseInt (s : string) (radix : Z) : option Z :=
  let s := trim_start s in
  let '(sign, s) := strip_sign s in
  let s := if radix =? 16 then strip_0x s else s in
  match parse_digits radix s None with
  | Some v => Some (sign * v)
  | None => None
  end.

(** A store of a number into a [Uint8Array]: [NaN] is stored as 0. *)
Definition u8_store (a : list Z) (i : nat) (v : option Z) : list Z :=
  match v with
  | Some z => u8_set a i z
  | None => u8_set a i 0
  end.

Definition hexToBytes (hex : string) : list Z :=
  let cleanHex := if startsWith hex "0x" then slice_from hex 2 else hex in
  let bytes := zeros (String.length cleanHex / 2) in
  fold_left
    (fun bytes i =>
       u8_store bytes i (parseInt (slice cleanHex (i * 2) (i * 2 + 2)) 16))
    (seq 0 (List.length bytes)) bytes.

(** [concatBytes(...arrays)]: a new array of the total length, each
    argument copied at the offset where the previous one ended. *)
Definition set_at (result : list Z) (arr : list Z) (offset : nat) : list Z :=
  fold_left (fun r i => u8_set r (offset + i) (get arr i))
            (seq 0 (List.length arr)) result.

Definition concatBytes (arrays : list (list Z)) : list Z :=
  let totalLength :=
    fold_left (fun sum arr => (sum + List.length arr)%nat) arrays 0%nat in
  let result := zeros totalLength in
  fst (fold_left
         (fun '(result, offset) arr =>
            (set_at result arr offset, (offset + List.length arr)%nat))
         arrays (result, 0%nat)).

Example bytesToHex_sample :
  bytesToHex [0; 1; 15; 16; 171; 255] = "0x00010f10abff"%string.
Proof. vm_compute. reflexivity. Qed.

Example hexToBytes_sample :
  hexToBytes "0x00010f10abff" = [0; 1; 15; 16; 171; 255].
Proof. vm_compute. reflexivity. Qed.


(** *** Strings *)

Lemma append_empty_r (s : string) : String.append s EmptyString = s.
Proof. induction s as [|c s IH]; simpl; congruence. Qed.

Lemma substring_whole (s : string) : substring 0 (String.length s) s = s.
Proof. induction s as [|c s IH]; simpl; congruence. Qed.

Definition two_chars (s : string) : Prop :=
  exists c1 c2, s = String c1 (String c2 EmptyString).

Lemma concat_two_chars (e : string) (l : list string) :
  String.concat "" (e :: l) = String.append e (String.concat "" l).
Proof.
  destruct l as [|y ys]; simpl.
  - now rewrite append_empty_r.
  - reflexivity.
Qed.

Lemma length_concat_two_chars (l : list string) :
  Forall two_chars l ->
  String.length (String.concat "" l) = (2 * List.length l)%nat.
Proof.
  induction 1 as [|e l (c1 & c2 & ->) Hl IH]; [reflexivity|].
  rewrite concat_two_chars. cbn [String.append String.length List.length].
  rewrite IH. lia.
Qed.

Lemma slice_concat_two_chars (l : list string) (i : nat) :
  Forall two_chars l -> (i < List.length l)%nat ->
  slice (String.concat "" l) (i * 2) (i * 2 + 2) = nth i l EmptyString.
Proof.
  unfold slice. replace (i * 2 + 2 - i * 2)%nat with 2%nat by lia.
  intros Hl; revert i.
  induction Hl as [|e l (c1 & c2 & ->) Hl IH]; intros i Hi;
    [simpl in Hi; lia|].
  rewrite concat_two_chars.
  destruct i as [|i].
  - cbn [String.append Nat.mul substring nth].
    destruct (String.concat "" l); reflexivity.
  - cbn [String.append Nat.mul Nat.add substring nth].
    apply IH. simpl in Hi. lia.
Qed.

(** *** One byte *)

Definition byte_hex_ok (b : Z) : bool :=
  match byte_hex b with
  | String _ (String _ EmptyString) =>
      match parseInt (byte_hex b) 16 with
      | Some v => v =? b
      | None => false
      end
  | _ => false
  end.

Lemma byte_hex_ok_all :
  forallb (fun n => byte_hex_ok (Z.of_nat n)) (seq 0 256) = true.
Proof. vm_compute. reflexivity. Qed.

Lemma byte_hex_ok_byte (b : Z) : is_byte b -> byte_hex_ok b = true.
Proof.
  unfold is_byte; intros Hb.
  pose proof byte_hex_ok_all as H. rewrite forallb_forall in H.
  specialize (H (Z.to_nat b)). rewrite Z2Nat.id in H by lia.
  apply H. apply in_seq. change (2 ^ 8) with 256 in Hb. lia.
Qed.

(** Every byte is printed as two characters, which [parseInt] reads back
    as the byte. *)
Lemma byte_hex_two_chars (b : Z) : is_byte b -> two_chars (byte_hex b).
Proof.
  intros Hb. pose proof (byte_hex_ok_byte b Hb) as H.
  unfold byte_hex_ok in H.
  destruct (byte_hex b) as [|c1 [|c2 [|c3 r]]]; try discriminate.
  now exists c1, c2.
Qed.

Lemma parseInt_byte_hex (b : Z) :
  is_byte b -> parseInt (byte_hex b) 16 = Some b.
Proof.
  intros Hb. pose proof (byte_hex_ok_byte b Hb) as H.
  unfold byte_hex_ok in H.
  destruct (byte_hex b) as [|c1 [|c2 [|c3 r]]]; try discriminate.
  destruct (parseInt _ 16) as [v|]; [|discriminate].
  apply Z.eqb_eq in H. now subst.
Qed.

Lemma byte_hex_all_two_chars (bs : list Z) :
  bytes bs -> Forall two_chars (map byte_hex bs).
Proof.
  unfold bytes. induction 1; simpl; constructor;
    auto using byte_hex_two_chars.
Qed.

(** *** The decoding loop *)

Definition stored (v : option Z) : Z :=
  match v with
  | Some z => ToUint8 z
  | None => 0
  end.

Lemma u8_store_upd (a : list Z) (i : nat) (v : option Z) :
  u8_store a i v = upd a i (stored v).
Proof. destruct v; reflexivity. Qed.

(** What [hexToBytes] returns for a string without and with the [0x]
    prefix: byte [i] is what [parseInt] reads in characters [2i] and
    [2i+1], and a trailing odd character is dropped. *)
Definition decode_clean (cleanHex : string) : list Z :=
  let bytes := zeros (String.length cleanHex / 2) in
  fold_left
    (fun bytes i =>
       u8_store bytes i (parseInt (slice cleanHex (i * 2) (i * 2 + 2)) 16))
    (seq 0 (List.length bytes)) bytes.

Lemma hexToBytes_clean (hex : string) :
  hexToBytes hex
  = decode_clean (if startsWith hex "0x" then slice_from hex 2 else hex).
Proof. reflexivity. Qed.

Lemma decode_clean_length (cleanHex : string) :
  List.length (decode_clean cleanHex) = (String.length cleanHex / 2)%nat.
Proof.
  unfold decode_clean. cbv zeta.
  rewrite (fold_left_ext
             (fun bytes i =>
                u8_store bytes i
                  (parseInt (slice cleanHex (i * 2) (i * 2 + 2)) 16))
             (fun a i =>
                upd a (0 + i)
                  (stored (parseInt (slice cleanHex (i * 2) (i * 2 + 2)) 16))))
    by (intros; apply u8_store_upd).
  now rewrite fold_upd_length, length_zeros.
Qed.

Lemma decode_clean_get (cleanHex : string) (j : nat) :
  (j < String.length cleanHex / 2)%nat ->
  get (decode_clean cleanHex) j
  = stored (parseInt (slice cleanHex (j * 2) (j * 2 + 2)) 16).
Proof.
  intros Hj. unfold decode_clean. cbv zeta.
  rewrite (fold_left_ext
             (fun bytes i =>
                u8_store bytes i
                  (parseInt (slice cleanHex (i * 2) (i * 2 + 2)) 16))
             (fun a i =>
                upd a (0 + i)
                  (stored (parseInt (slice cleanHex (i * 2) (i * 2 + 2)) 16))))
    by (intros; apply u8_store_upd).
  rewrite fold_upd_get by (rewrite !length_zeros; lia).
  rewrite length_zeros.
  destruct (Nat.leb_spec 0 j), (Nat.ltb_spec j (0 + String.length cleanHex / 2));
    simpl; try lia.
  now rewrite Nat.sub_0_r.
Qed.

Lemma bytesToHex_clean (bs : list Z) :
  (if startsWith (bytesToHex bs) "0x" then slice_from (bytesToHex bs) 2
   else bytesToHex bs)
  = String.concat "" (map byte_hex bs).
Proof.
  unfold bytesToHex, startsWith, slice_from.
  cbn [String.append String.prefix String.length].
  destruct (ascii_dec "0" "0") as [_|n]; [|exfalso; apply n; reflexivity].
  destruct (ascii_dec "x" "x") as [_|n]; [|exfalso; apply n; reflexivity].
  set (body := String.concat "" (map byte_hex bs)).
  replace (S (S (String.length body)) - 2)%nat with (String.length body)
    by lia.
  cbn [substring].
  assert (P : String.prefix "" body = true) by (destruct body; reflexivity).
  rewrite P. apply substring_whole.
Qed.

(** C10. For every byte array [b], [hexToBytes (bytesToHex b) = b]. *)
Theorem hexToBytes_bytesToHex (b : list Z) :
  bytes b -> hexToBytes (bytesToHex b) = b.
Proof.
  intros Hb.
  pose proof (byte_hex_all_two_chars b Hb) as H2.
  rewrite hexToBytes_clean, bytesToHex_clean.
  pose proof (length_concat_two_chars _ H2) as Hlen.
  rewrite length_map in Hlen.
  assert (Hn : (String.length (String.concat "" (map byte_hex b)) / 2
                = List.length b)%nat).
  { rewrite Hlen, Nat.mul_comm. apply Nat.div_mul. lia. }
  apply list_eq_get.
  - now rewrite decode_clean_length.
  - intros j Hj. rewrite decode_clean_length, Hn in Hj.
    rewrite decode_clean_get by lia.
    rewrite slice_concat_two_chars by (rewrite ?length_map; assumption).
    rewrite (nth_indep _ EmptyString (byte_hex 0))
      by (rewrite length_map; assumption).
    rewrite map_nth. fold (get b j).
    pose proof (Forall_get _ _ _ Hb Hj) as Hbj.
    rewrite parseInt_byte_hex by assumption.
    unfold stored, ToUint8. apply Z.mod_small. exact Hbj.
Qed.

Lemma hexToBytes_bytesToHex_witness :
  bytes [0; 7; 160; 255]
  /\ hexToBytes (bytesToHex [0; 7; 160; 255]) = [0; 7; 160; 255].
Proof.
  assert (H : bytes [0; 7; 160; 255])
    by (repeat constructor; unfold is_byte; lia).
  split; [exact H|].
  exact (hexToBytes_bytesToHex [0; 7; 160; 255] H).
Defined.



(** *** More about the hexadecimal encoding *)

(** Decoding after encoding, for use below. *)
Lemma decode_encode (b : list Z) : bytes b -> hexToBytes (bytesToHex b) = b.
Proof.
  intros Hb.
  pose proof (byte_hex_all_two_chars b Hb) as H2.
  rewrite hexToBytes_clean, bytesToHex_clean.
  pose proof (length_concat_two_chars _ H2) as Hlen.
  rewrite length_map in Hlen.
  assert (Hn : (String.length (String.concat "" (map byte_hex b)) / 2
                = List.length b)%nat).
  { rewrite Hlen, Nat.mul_comm. apply Nat.div_mul. lia. }
  apply list_eq_get.
  - now rewrite decode_clean_length.
  - intros j Hj. rewrite decode_clean_length, Hn in Hj.
    rewrite decode_clean_get by lia.
    rewrite slice_concat_two_chars by (rewrite ?length_map; assumption).
    rewrite (nth_indep _ EmptyString (byte_hex 0))
      by (rewrite length_map; assumption).
    rewrite map_nth. fold (get b j).
    pose proof (Forall_get _ _ _ Hb Hj) as Hbj.
    rewrite parseInt_byte_hex by assumption.
    unfold stored, ToUint8. apply Z.mod_small. exact Hbj.
Qed.

Lemma length_append (s1 s2 : string) :
  String.length (String.append s1 s2)
  = (String.length s1 + String.length s2)%nat.
Proof. induction s1 as [|c s1 IH]; simpl; congruence. Qed.

Lemma bytesToHex_length (b : list Z) :
  bytes b -> String.length (bytesToHex b) = (2 + 2 * List.length b)%nat.
Proof.
  intros Hb. unfold bytesToHex. rewrite length_append.
  rewrite length_concat_two_chars by (now apply byte_hex_all_two_chars).
  rewrite length_map. reflexivity.
Qed.

(** [bytesToHex] writes [0x] and two characters per byte, and two
    different byte arrays never get the same text. *)
Theorem bytesToHex_injective (b1 b2 : list Z) :
  bytes b1 -> bytes b2 ->
  String.length (bytesToHex b1) = (2 + 2 * List.length b1)%nat
  /\ (bytesToHex b1 = bytesToHex b2 -> b1 = b2).
Proof.
  intros H1 H2. split; [now apply bytesToHex_length|].
  intros E. rewrite <- (decode_encode b1 H1), <- (decode_encode b2 H2).
  now rewrite E.
Qed.

Lemma bytesToHex_injective_witness :
  bytes [1; 2] /\ bytes [1; 3]
  /\ String.length (bytesToHex [1; 2]) = (2 + 2 * List.length [1; 2])%nat
  /\ (bytesToHex [1; 2] = bytesToHex [1; 3] -> [1; 2] = [1; 3]).
Proof.
  assert (H1 : bytes [1; 2]) by (repeat constructor; unfold is_byte; lia).
  assert (H2 : bytes [1; 3]) by (repeat constructor; unfold is_byte; lia).
  split; [exact H1|]. split; [exact H2|].
  exact (bytesToHex_injective [1; 2] [1; 3] H1 H2).
Defined.

Lemma length_slice_from (s : string) (a : nat) :
  String.length (slice_from s a) = (String.length s - a)%nat.
Proof.
  unfold slice_from. revert a. induction s as [|c s IH]; intros a.
  - destruct a; reflexivity.
  - destruct a as [|a].
    + cbn [String.length Nat.sub substring]. f_equal.
      pose proof (IH 0%nat) as H0. rewrite Nat.sub_0_r in H0. 
      rewrite substring_whole. reflexivity.
    + cbn [String.length Nat.sub substring]. apply IH.
Qed.

Lemma decode_clean_bytes (cleanHex : string) : bytes (decode_clean cleanHex).
Proof.
  unfold decode_clean. cbv zeta.
  apply (ChaCha20.fold_left_preserves bytes).
  - apply bytes_zeros.
  - intros a i Ha. rewrite u8_store_upd. apply Forall_upd; [exact Ha|].
    destruct (parseInt _ 16) as [z|]; simpl.
    + unfold is_byte, ToUint8. apply Z.mod_pos_bound. lia.
    + unfold is_byte. lia.
Qed.

(** [hexToBytes] never fails: for any string it returns an array of
    bytes with one byte per pair of characters after the optional [0x]
    prefix; a last character without a partner is dropped. *)
Theorem hexToBytes_any_string (hex : string) :
  bytes (hexToBytes hex)
  /\ (startsWith hex "0x" = true ->
      List.length (hexToBytes hex) = ((String.length hex - 2) / 2)%nat)
  /\ (startsWith hex "0x" = false ->
      List.length (hexToBytes hex) = (String.length hex / 2)%nat).
Proof.
  rewrite hexToBytes_clean. split; [apply decode_clean_bytes|].
  split; intros E; rewrite E, decode_clean_length.
  - now rewrite length_slice_from.
  - reflexivity.
Qed.

Lemma hexToBytes_any_string_witness :
  bytes (hexToBytes "0xa1zz7")
  /\ List.length (hexToBytes "0xa1zz7") = ((String.length "0xa1zz7" - 2) / 2)%nat
  /\ List.length (hexToBytes "a1zz7") = (String.length "a1zz7" / 2)%nat.
Proof.
  split; [apply (proj1 (hexToBytes_any_string "0xa1zz7"))|]. split.
  - apply (proj1 (proj2 (hexToBytes_any_string "0xa1zz7"))). reflexivity.
  - apply (proj2 (proj2 (hexToBytes_any_string "a1zz7"))). reflexivity.
Defined.

(** The second character of a byte's two is a hexadecimal digit, never
    [x]. *)
Definition second_is_x (s : string) : bool :=
  match s with
  | String _ (String c _) => Ascii.eqb c "x"
  | _ => false
  end.

Lemma byte_hex_second_all :
  forallb (fun n => negb (second_is_x (byte_hex (Z.of_nat n)))) (seq 0 256)
  = true.
Proof. vm_compute. reflexivity. Qed.

Lemma byte_hex_second (b : Z) :
  is_byte b -> second_is_x (byte_hex b) = false.
Proof.
  unfold is_byte; intros Hb.
  pose proof byte_hex_second_all as H. rewrite forallb_forall in H.
  specialize (H (Z.to_nat b)). rewrite Z2Nat.id in H by lia.
  apply negb_true_iff, H, in_seq. change (2 ^ 8) with 256 in Hb. lia.
Qed.

Lemma prefix_0x_second (s : string) :
  second_is_x s = false -> String.prefix "0x" s = false.
Proof.
  destruct s as [|c0 [|c1 s]]; cbn [String.prefix second_is_x]; intros H.
  - reflexivity.
  - destruct (ascii_dec "0" c0); reflexivity.
  - destruct (ascii_dec "0" c0); [|reflexivity].
    destruct (ascii_dec "x" c1) as [<-|]; [|reflexivity].
    rewrite Ascii.eqb_refl in H. discriminate.
Qed.

(** The [0x] prefix is optional when decoding what [bytesToHex] wrote:
    [hexToBytes(bytesToHex(b).slice(2))] is [b] as well. *)
Theorem hexToBytes_without_prefix (b : list Z) :
  bytes b -> hexToBytes (slice_from (bytesToHex b) 2) = b.
Proof.
  intros Hb.
  assert (Es : slice_from (bytesToHex b) 2
               = String.concat "" (map byte_hex b)).
  { pose proof (bytesToHex_clean b) as H.
    unfold startsWith in H.
    assert (P : String.prefix "0x" (bytesToHex b) = true).
    { unfold bytesToHex. cbn [String.append String.prefix].
      destruct (ascii_dec "0" "0") as [_|n]; [|exfalso; apply n; reflexivity].
      destruct (ascii_dec "x" "x") as [_|n]; [|exfalso; apply n; reflexivity].
      destruct (String.concat "" (map byte_hex b)); reflexivity. }
    now rewrite P in H. }
  assert (Hno : startsWith (String.concat "" (map byte_hex b)) "0x" = false).
  { unfold startsWith. apply prefix_0x_second.
    destruct Hb as [|b0 bs Hb0 Hbs]; [reflexivity|].
    cbn [map]. rewrite concat_two_chars.
    destruct (byte_hex_two_chars b0 Hb0) as (c1 & c2 & Eb).
    pose proof (byte_hex_second b0 Hb0) as Hx. rewrite Eb in Hx |- *.
    exact Hx. }
  rewrite Es, hexToBytes_clean, Hno.
  rewrite <- (decode_encode b Hb) at 2.
  now rewrite hexToBytes_clean, bytesToHex_clean.
Qed.

Lemma hexToBytes_without_prefix_witness :
  bytes [0; 7; 160; 255]
  /\ hexToBytes (slice_from (bytesToHex [0; 7; 160; 255]) 2)
     = [0; 7; 160; 255].
Proof.
  assert (H : bytes [0; 7; 160; 255])
    by (repeat constructor; unfold is_byte; lia).
  split; [exact H|]. exact (hexToBytes_without_prefix [0; 7; 160; 255] H).
Defined.


(** *** [concatBytes] *)

Lemma set_at_length (result arr : list Z) (offset : nat) :
  List.length (set_at result arr offset) = List.length result.
Proof. unfold set_at, u8_set. apply fold_upd_length. Qed.

Lemma set_at_get (result arr : list Z) (offset j : nat) :
  (offset + List.length arr <= List.length result)%nat ->
  get (set_at result arr offset) j
  = if (offset <=? j)%nat && (j <? offset + List.length arr)%nat
    then ToUint8 (get arr (j - offset))
    else get result j.
Proof.
  intros H. unfold set_at, u8_set.
  now rewrite (fold_upd_get (fun i => ToUint8 (get arr i))).
Qed.

Lemma total_length (arrays : list (list Z)) (n : nat) :
  fold_left (fun sum arr => (sum + List.length arr)%nat) arrays n
  = (n + List.length (List.concat arrays))%nat.
Proof.
  revert n; induction arrays as [|arr arrays IH]; intros n; simpl.
  - lia.
  - rewrite IH, length_app. lia.
Qed.

Lemma get_app (a b : list Z) (k : nat) :
  get (a ++ b) k
  = if (k <? List.length a)%nat then get a k
    else get b (k - List.length a).
Proof.
  unfold get. destruct (Nat.ltb_spec k (List.length a)).
  - now apply app_nth1.
  - now apply app_nth2.
Qed.

(** The copying loop, started at [offset] on [result]. *)
Lemma copy_loop (arrays : list (list Z)) :
  forall (result : list Z) (offset : nat),
    (offset + List.length (List.concat arrays) <= List.length result)%nat ->
    let out :=
      fst (fold_left
             (fun '(result, offset) arr =>
                (set_at result arr offset, (offset + List.length arr)%nat))
             arrays (result, offset)) in
    List.length out = List.length result
    /\ forall j,
        get out j
        = if (offset <=? j)%nat
             && (j <? offset + List.length (List.concat arrays))%nat
          then ToUint8 (get (List.concat arrays) (j - offset))
          else get result j.
Proof.
  induction arrays as [|arr arrays IH]; intros result offset Hfit out.
  - subst out. simpl. split; [reflexivity|]. intros j.
    destruct (Nat.leb_spec offset j), (Nat.ltb_spec j (offset + 0));
      simpl; auto; lia.
  - subst out. cbn [fold_left List.concat] in *. rewrite length_app in *.
    destruct (IH (set_at result arr offset) (offset + List.length arr)%nat)
      as [Hlen Hget].
    { rewrite set_at_length. lia. }
    split; [now rewrite Hlen, set_at_length|].
    intros j. rewrite Hget, set_at_get by lia.
    rewrite get_app.
    destruct (Nat.leb_spec (offset + List.length arr) j),
      (Nat.ltb_spec j (offset + List.length arr
                       + List.length (List.concat arrays))),
      (Nat.leb_spec offset j),
      (Nat.ltb_spec j (offset + List.length arr)),
      (Nat.ltb_spec j (offset + (List.length arr
                                 + List.length (List.concat arrays))));
      simpl; try lia; try reflexivity;
      destruct (Nat.ltb_spec (j - offset) (List.length arr));
      try lia; try reflexivity.
    f_equal. f_equal. lia.
Qed.

Lemma bytes_concat (arrays : list (list Z)) :
  Forall bytes arrays -> bytes (List.concat arrays).
Proof.
  unfold bytes. induction 1; simpl; [constructor|].
  apply Forall_app; auto.
Qed.

(** [concatBytes] of byte arrays is their concatenation, in order. *)
Theorem concatBytes_concat (arrays : list (list Z)) :
  Forall bytes arrays -> concatBytes arrays = List.concat arrays.
Proof.
  intros Hb. unfold concatBytes. cbv zeta. rewrite total_length.
  cbn [Nat.add].
  destruct (copy_loop arrays (zeros (List.length (List.concat arrays))) 0)
    as [Hlen Hget]; [rewrite length_zeros; lia|].
  rewrite length_zeros in Hlen.
  apply list_eq_get; [exact Hlen|].
  intros j Hj. rewrite Hlen in Hj. rewrite Hget.
  destruct (Nat.leb_spec 0 j), (Nat.ltb_spec j (0 + List.length (List.concat arrays)));
    simpl; try lia.
  rewrite Nat.sub_0_r. unfold ToUint8. apply Z.mod_small.
  exact (Forall_get _ _ _ (bytes_concat arrays Hb) Hj).
Qed.

Lemma concatBytes_concat_witness :
  Forall bytes [[1; 2; 3]; []; [255; 0]]
  /\ concatBytes [[1; 2; 3]; []; [255; 0]] = List.concat [[1; 2; 3]; []; [255; 0]].
Proof.
  assert (H : Forall bytes [[1; 2; 3]; []; [255; 0]])
    by (repeat constructor; unfold is_byte; lia).
  split; [exact H|]. exact (concatBytes_concat _ H).
Defined.

End Bytes.

(** ** [deriveKeyFromPasswordAddress]

    The same function in [ReportSubmit.tsx] and in [ReportList.tsx]. The
    two functions it imports from [ethers] are parameters: [toUtf8Bytes],
    and [keccak256], which returns the 32-byte Keccak-256 digest of its
    argument as a string, [0x] followed by two lowercase hexadecimal
    digits per byte (the format of [bytesToHex]). *)
Module KeyDerivation.
Import JS Bytes.

(** [String.prototype.toLowerCase] on the characters below 256: [A-Z] and
    the capital letters of Latin-1 ([U+00C0] to [U+00DE] but the
    multiplication sign [U+00D7]) move up by 32. *)
Definition toLowerCase_char (c : ascii) : ascii :=
  let n := nat_of_ascii c in
  if ((65 <=? n) && (n <=? 90)
      || (192 <=? n) && (n <=? 222) && negb (n =? 215))%nat%bool
  then ascii_of_nat (n + 32) else c.

Fixpoint toLowerCase (s : string) : string :=
  match s with
  | String c s' => String (toLowerCase_char c) (toLowerCase s')
  | EmptyString => EmptyString
  end.

Section Derive.

Variable keccak256_digest : list Z -> list Z.
Variable toUtf8Bytes : string -> list Z.

Definition keccak256 (data : list Z) : string :=
  bytesToHex (keccak256_digest data).

Definition deriveKeyFromPasswordAddress (passwordAddress : string)
  : list Z :=
  let hash := keccak256 (toUtf8Bytes (toLowerCase passwordAddress)) in
  let key := zeros 32 in
  fold_left
    (fun key i =>
       u8_store key i (parseInt (slice hash (2 + i * 2) (4 + i * 2)) 16))
    (seq 0 32) key.

End Derive.

(** *** Lowercasing *)

Lemma toLowerCase_char_idem (c : ascii) :
  toLowerCase_char (toLowerCase_char c) = toLowerCase_char c.
Proof. destruct c as [[] [] [] [] [] [] [] []]; reflexivity. Qed.

Lemma toLowerCase_idem (s : string) :
  toLowerCase (toLowerCase s) = toLowerCase s.
Proof.
  induction s as [|c s IH]; simpl; [reflexivity|].
  now rewrite toLowerCase_char_idem, IH.
Qed.

(** *** Reading the digest back from the hash string *)

Lemma slice_skip_0x (body : string) (i : nat) :
  slice (String.append "0x" body) (2 + i * 2) (4 + i * 2)
  = slice body (i * 2) (i * 2 + 2).
Proof.
  unfold slice.
  replace (4 + i * 2 - (2 + i * 2))%nat with 2%nat by lia.
  replace (i * 2 + 2 - i * 2)%nat with 2%nat by lia.
  reflexivity.
Qed.

Lemma deriveKey_get (keccak256_digest : list Z -> list Z)
  (toUtf8Bytes : string -> list Z) (passwordAddress : string) (j : nat) :
  (j < 32)%nat ->
  get (deriveKeyFromPasswordAddress keccak256_digest toUtf8Bytes
         passwordAddress) j
  = stored
      (parseInt
         (slice (keccak256 keccak256_digest
                   (toUtf8Bytes (toLowerCase passwordAddress)))
                (2 + j * 2) (4 + j * 2)) 16).
Proof.
  intros Hj. unfold deriveKeyFromPasswordAddress. cbv zeta.
  set (hash := keccak256 _ _).
  rewrite (fold_left_ext
             (fun key i =>
                u8_store key i
                  (parseInt (slice hash (2 + i * 2) (4 + i * 2)) 16))
             (fun a i =>
                upd a (0 + i)
                  (stored (parseInt (slice hash (2 + i * 2) (4 + i * 2)) 16))))
    by (intros; apply u8_store_upd).
  rewrite fold_upd_get by (rewrite length_zeros; lia).
  destruct (Nat.leb_spec 0 j), (Nat.ltb_spec j (0 + 32)); simpl; try lia.
  now rewrite Nat.sub_0_r.
Qed.

Lemma deriveKey_length (keccak256_digest : list Z -> list Z)
  (toUtf8Bytes : string -> list Z) (passwordAddress : string) :
  List.length (deriveKeyFromPasswordAddress keccak256_digest toUtf8Bytes
                 passwordAddress) = 32%nat.
Proof.
  unfold deriveKeyFromPasswordAddress. cbv zeta.
  apply (ChaCha20.fold_left_preserves (fun k => List.length k = 32%nat)).
  - apply length_zeros.
  - intros k i Hk. rewrite u8_store_upd, length_upd. exact Hk.
Qed.

(** The key is the digest when the digest has (at least) 32 bytes. *)
Lemma deriveKey_digest (keccak256_digest : list Z -> list Z)
  (toUtf8Bytes : string -> list Z) (passwordAddress : string) :
  let digest :=
    keccak256_digest (toUtf8Bytes (toLowerCase passwordAddress)) in
  (32 <= List.length digest)%nat -> bytes digest ->
  deriveKeyFromPasswordAddress keccak256_digest toUtf8Bytes passwordAddress
  = firstn 32 digest.
Proof.
  intros digest Hlen Hb.
  pose proof (byte_hex_all_two_chars digest Hb) as H2.
  apply list_eq_get.
  - rewrite deriveKey_length, length_firstn. lia.
  - intros j Hj. rewrite deriveKey_length in Hj.
    rewrite deriveKey_get by assumption.
    unfold keccak256, bytesToHex. fold digest.
    rewrite slice_skip_0x.
    rewrite slice_concat_two_chars
      by (rewrite ?length_map; first [assumption | lia]).
    rewrite (nth_indep _ EmptyString (byte_hex 0))
      by (rewrite length_map; lia).
    rewrite map_nth. fold (get digest j).
    assert (Hdj : is_byte (get digest j)) by (apply Forall_get; [exact Hb|lia]).
    rewrite parseInt_byte_hex by assumption.
    unfold get. rewrite nth_firstn.
    destruct (Nat.ltb_spec j 32); [|lia].
    unfold stored, ToUint8. apply Z.mod_small. exact Hdj.
Qed.

(** C7. The key depends on the address only through its lowercased text:
    an address and its lowercase form, and so any two spellings of one
    address that differ in the case of hexadecimal letters, give the same
    key; the key has 32 bytes; and when the hash is the 32-byte digest of
    the UTF-8 text of the lowercased address, the key is the first 32
    bytes of that digest. *)
Theorem deriveKey_case_invariant (keccak256_digest : list Z -> list Z)
  (toUtf8Bytes : string -> list Z) (addr : string) :
  let digest := keccak256_digest (toUtf8Bytes (toLowerCase addr)) in
  List.length digest = 32%nat -> bytes digest ->
  deriveKeyFromPasswordAddress keccak256_digest toUtf8Bytes addr
  = deriveKeyFromPasswordAddress keccak256_digest toUtf8Bytes
      (toLowerCase addr)
  /\ (forall addr',
         toLowerCase addr' = toLowerCase addr ->
         deriveKeyFromPasswordAddress keccak256_digest toUtf8Bytes addr'
         = deriveKeyFromPasswordAddress keccak256_digest toUtf8Bytes addr)
  /\ List.length
       (deriveKeyFromPasswordAddress keccak256_digest toUtf8Bytes addr)
     = 32%nat
  /\ deriveKeyFromPasswordAddress keccak256_digest toUtf8Bytes addr
     = firstn 32 digest.
Proof.
  intros digest Hlen Hb. split; [|split; [|split]].
  - unfold deriveKeyFromPasswordAddress. now rewrite toLowerCase_idem.
  - intros addr' E. unfold deriveKeyFromPasswordAddress. now rewrite E.
  - apply deriveKey_length.
  - apply deriveKey_digest; [fold digest; lia|exact Hb].
Qed.

(** A stand-in for the two [ethers] functions on ASCII text: the
    character codes, and a 32-byte value computed from them. *)
Definition ascii_codes (s : string) : list Z :=
  map (fun c => Z.of_nat (nat_of_ascii c)) (list_ascii_of_string s).

Definition sample_digest (data : list Z) : list Z :=
  ChaCha20.chacha20Block (ChaCha20.fit 32 data) 0 (zeros 12).

Definition sample_address : string :=
  "0xABCDEF1234567890ABCDEF1234567890ABCDEF12".

Lemma deriveKey_case_invariant_witness :
  deriveKeyFromPasswordAddress (fun d => firstn 32 (sample_digest d))
    ascii_codes sample_address
  = deriveKeyFromPasswordAddress (fun d => firstn 32 (sample_digest d))
      ascii_codes (toLowerCase sample_address)
  /\ (forall addr',
         toLowerCase addr' = toLowerCase sample_address ->
         deriveKeyFromPasswordAddress (fun d => firstn 32 (sample_digest d))
           ascii_codes addr'
         = deriveKeyFromPasswordAddress
             (fun d => firstn 32 (sample_digest d)) ascii_codes
             sample_address)
  /\ List.length
       (deriveKeyFromPasswordAddress (fun d => firstn 32 (sample_digest d))
          ascii_codes sample_address)
     = 32%nat
  /\ deriveKeyFromPasswordAddress (fun d => firstn 32 (sample_digest d))
       ascii_codes sample_address
     = firstn 32
         (firstn 32 (sample_digest (ascii_codes (toLowerCase sample_address)))).
Proof.
  apply (deriveKey_case_invariant (fun d => firstn 32 (sample_digest d))
           ascii_codes sample_address).
  - vm_compute. reflexivity.
  - apply ChaCha20.bytes_dec_true. vm_compute. reflexivity.
Defined.


(** *** [generateRandomAddress] ([ReportSubmit.tsx])

    The password: [0x] and the two-digit hexadecimal text of each of the
    20 bytes [randomBytes(20)] returned, here the argument [random]. *)
Definition generateRandomAddress (random : list Z) : string :=
  String.append "0x" (String.concat "" (map byte_hex random)).

Lemma toLowerCase_append (s1 s2 : string) :
  toLowerCase (String.append s1 s2)
  = String.append (toLowerCase s1) (toLowerCase s2).
Proof. induction s1 as [|c s1 IH]; simpl; congruence. Qed.

Lemma byte_hex_lower_all :
  forallb (fun n => String.eqb (toLowerCase (byte_hex (Z.of_nat n)))
                               (byte_hex (Z.of_nat n)))
          (seq 0 256) = true.
Proof. vm_compute. reflexivity. Qed.

Lemma byte_hex_lower (b : Z) :
  is_byte b -> toLowerCase (byte_hex b) = byte_hex b.
Proof.
  unfold is_byte; intros Hb.
  pose proof byte_hex_lower_all as H. rewrite forallb_forall in H.
  specialize (H (Z.to_nat b)). rewrite Z2Nat.id in H by lia.
  apply String.eqb_eq, H, in_seq. change (2 ^ 8) with 256 in Hb. lia.
Qed.

Lemma hex_text_lower (bs : list Z) :
  bytes bs ->
  toLowerCase (String.concat "" (map byte_hex bs))
  = String.concat "" (map byte_hex bs).
Proof.
  unfold bytes. induction 1 as [|b bs Hb Hbs IH]; [reflexivity|].
  cbn [map]. rewrite concat_two_chars, toLowerCase_append, IH.
  now rewrite byte_hex_lower.
Qed.

(** The generated password is already in lower case, so the key derived
    from it is the hash of its own text; it has two characters per random
    byte after [0x] (42 for 20 bytes), and it encodes the random bytes. *)
Theorem generateRandomAddress_lowercase (random : list Z) :
  bytes random ->
  toLowerCase (generateRandomAddress random) = generateRandomAddress random
  /\ String.length (generateRandomAddress random)
     = (2 + 2 * List.length random)%nat
  /\ hexToBytes (generateRandomAddress random) = random.
Proof.
  intros Hb. split; [|split].
  - unfold generateRandomAddress. rewrite toLowerCase_append.
    now rewrite hex_text_lower.
  - now apply bytesToHex_length.
  - now apply decode_encode.
Qed.

Lemma generateRandomAddress_lowercase_witness :
  bytes ChaCha20.sample_key
  /\ toLowerCase (generateRandomAddress ChaCha20.sample_key)
     = generateRandomAddress ChaCha20.sample_key
  /\ String.length (generateRandomAddress ChaCha20.sample_key)
     = (2 + 2 * List.length ChaCha20.sample_key)%nat
  /\ hexToBytes (generateRandomAddress ChaCha20.sample_key)
     = ChaCha20.sample_key.
Proof.
  assert (H : bytes ChaCha20.sample_key)
    by (apply ChaCha20.bytes_dec_true; reflexivity).
  split; [exact H|].
  exact (generateRandomAddress_lowercase ChaCha20.sample_key H).
Defined.

End KeyDerivation.

(** ** The content of a report on its way to the ledger and back

    The steps of [handleSubmit] ([ReportSubmit.tsx]) that build the
    [encryptedData] argument, and the steps of the decryption handler of
    [ReportList.tsx] that read it back, with the key and the nonce as
    arguments. *)
Module ReportContent.
Import JS Bytes.

(** [const ct = chacha20Encrypt(key, nonce, ptBytes);
     const data = concatBytes(nonce, ct);
     ... bytesToHex(data)] *)
Definition sealContent (key nonce ptBytes : list Z) : completion string :=
  match ChaCha20.chacha20Encrypt key nonce ptBytes with
  | Normal ct =>
      let data := concatBytes [nonce; ct] in
      Normal (bytesToHex data)
  | Throw message => Throw message
  | Unfinished => Unfinished
  end.

(** [const allBytes = hexToBytes(encryptedData);
     const nonce = allBytes.slice(0, 12);
     const ct = allBytes.slice(12);
     const pt = chacha20Decrypt(key, nonce, ct)] *)
Definition openContent (key : list Z) (encryptedData : string)
  : completion (list Z) :=
  let allBytes := hexToBytes encryptedData in
  let nonce := firstn 12 allBytes in
  let ct := skipn 12 allBytes in
  ChaCha20.chacha20Decrypt key nonce ct.

(** Encrypting twice with the same key and nonce. *)
Lemma encrypt_twice (key nonce data : list Z) :
  bytes data ->
  exists ct,
    ChaCha20.chacha20Encrypt key nonce data = Normal ct
    /\ List.length ct = List.length data
    /\ bytes ct
    /\ ChaCha20.chacha20Encrypt key nonce ct = Normal data.
Proof.
  intros Hdata.
  destruct (ChaCha20.chacha20Encrypt_spec key nonce data)
    as (ct & Hct & Hlen & Hget).
  assert (Hxor : forall j, (j < List.length data)%nat ->
            get ct j
            = Z.lxor (get data j) (ChaCha20.keystream_byte key nonce j)).
  { intros j Hj. rewrite (Hget j Hj). apply bitxor_bytes.
    - now apply Forall_get.
    - apply ChaCha20.keystream_byte_is_byte. }
  assert (Hbytes : bytes ct).
  { apply Forall_of_get. intros j Hj. rewrite Hlen in Hj.
    rewrite (Hxor j Hj). apply is_byte_lxor.
    - now apply Forall_get.
    - apply ChaCha20.keystream_byte_is_byte. }
  exists ct. split; [exact Hct|]. split; [exact Hlen|].
  split; [exact Hbytes|].
  destruct (ChaCha20.chacha20Encrypt_spec key nonce ct)
    as (pt & Hpt & Hlen' & Hget').
  rewrite Hpt. f_equal.
  apply list_eq_get; [congruence|].
  intros j Hj.
  assert (Hjd : (j < List.length data)%nat) by congruence.
  assert (Hjc : (j < List.length ct)%nat) by congruence.
  rewrite (Hget' j Hjc), bitxor_bytes.
  - rewrite (Hxor j Hjd). apply lxor_cancel.
  - now apply Forall_get.
  - apply ChaCha20.keystream_byte_is_byte.
Qed.

(** What the submitting side writes, the reading side decrypts to the
    plaintext bytes, provided the nonce has exactly 12 bytes: the text is
    [0x], the 12 nonce bytes and one ciphertext byte per plaintext byte,
    two characters each. *)
Theorem openContent_sealContent (key nonce ptBytes : list Z) :
  List.length nonce = 12%nat -> bytes nonce -> bytes ptBytes ->
  exists encryptedData,
    sealContent key nonce ptBytes = Normal encryptedData
    /\ String.length encryptedData
       = (2 + 2 * (12 + List.length ptBytes))%nat
    /\ firstn 12 (hexToBytes encryptedData) = nonce
    /\ openContent key encryptedData = Normal ptBytes.
Proof.
  intros Hn Bn Bp.
  destruct (encrypt_twice key nonce ptBytes Bp)
    as (ct & Hct & Hlen & Bct & Hback).
  unfold sealContent, openContent. rewrite Hct. cbv zeta.
  assert (Hcat : concatBytes [nonce; ct] = nonce ++ ct).
  { rewrite concatBytes_concat by (repeat constructor; assumption).
    simpl. now rewrite app_nil_r. }
  assert (Ball : bytes (nonce ++ ct)) by (apply Forall_app; auto).
  rewrite Hcat. eexists. split; [reflexivity|].
  rewrite decode_encode by assumption.
  assert (Hfst : firstn 12 (nonce ++ ct) = nonce).
  { rewrite <- Hn. rewrite firstn_app, Nat.sub_diag, firstn_all.
    simpl. apply app_nil_r. }
  assert (Hsnd : skipn 12 (nonce ++ ct) = ct).
  { rewrite <- Hn. rewrite skipn_app, Nat.sub_diag, skipn_all.
    reflexivity. }
  split; [|split].
  - rewrite bytesToHex_length by assumption.
    rewrite length_app, Hn, Hlen. reflexivity.
  - exact Hfst.
  - rewrite Hfst, Hsnd. exact Hback.
Qed.

Lemma openContent_sealContent_witness :
  List.length ChaCha20.sample_nonce = 12%nat
  /\ bytes ChaCha20.sample_nonce
  /\ bytes [115; 101; 99; 114; 101; 116]
  /\ exists encryptedData,
      sealContent ChaCha20.sample_key ChaCha20.sample_nonce
        [115; 101; 99; 114; 101; 116] = Normal encryptedData
      /\ String.length encryptedData
         = (2 + 2 * (12 + List.length [115; 101; 99; 114; 101; 116]))%nat
      /\ firstn 12 (hexToBytes encryptedData) = ChaCha20.sample_nonce
      /\ openContent ChaCha20.sample_key encryptedData
         = Normal [115; 101; 99; 114; 101; 116].
Proof.
  assert (Hn : List.length ChaCha20.sample_nonce = 12%nat) by reflexivity.
  assert (Bn : bytes ChaCha20.sample_nonce)
    by (apply ChaCha20.bytes_dec_true; reflexivity).
  assert (Bp : bytes [115; 101; 99; 114; 101; 116])
    by (apply ChaCha20.bytes_dec_true; reflexivity).
  split; [exact Hn|]. split; [exact Bn|]. split; [exact Bp|].
  exact (openContent_sealContent ChaCha20.sample_key ChaCha20.sample_nonce
           [115; 101; 99; 114; 101; 116] Hn Bn Bp).
Defined.

End ReportContent.

(** ** [contracts/CityGuard.sol]

    A transaction either succeeds with the next state or reverts, which
    leaves the state as it was. Addresses and encrypted-value handles are
    integers that are only stored and compared; array indices and ids are
    natural numbers (an array's length stays far below [2^256]). *)
Module CityGuard.

Definition address : Type := Z.
Definition eaddress : Type := Z.
Definition externalEaddress : Type := Z.

Inductive ReportStatus : Type :=
| Pending
| Reviewed
| Resolved.

Record Report : Type := mkReport {
  reporter : address;
  title : string;
  encryptedData : list Z;
  encryptedKey : eaddress;
  createdAt : Z;
  status : ReportStatus
}.

Inductive Event : Type :=
| ReportSubmitted (id : nat) (by_ : address) (title_ : string)
    (createdAt_ : Z)
| ReportStatusUpdated (id : nat) (newStatus : ReportStatus).

(** The storage of the contract, with the two things it changes outside
    its own storage: the access list of the FHE library ([allowed], the
    pairs of a handle and an account granted by [FHE.allowThis] and
    [FHE.allow]) and the log of emitted events. *)
Record State : Type := mkState {
  _reports : list Report;
  _reportsByReporter : address -> list nat;
  allowed : list (eaddress * address);
  events : list Event
}.

(** [msg.sender] and [block.timestamp] of a call. *)
Record Msg : Type := mkMsg {
  sender : address;
  timestamp : Z
}.

(** Why a call reverts: a [require] with its message, a panic with its
    code ([0x32]: array index out of bounds), or the input verification
    of [FHE.fromExternal]. *)
Inductive failure : Type :=
| Error (reason : string)
| Panic (code : Z)
| InputRejected.

Inductive result (A : Type) : Type :=
| Ok (value : A)
| Revert (f : failure).

Arguments Ok {A} value.
Arguments Revert {A} f.

(** The state after deployment. *)
Definition deployed : State :=
  {| _reports := [];
     _reportsByReporter := fun _ => [];
     allowed := [];
     events := [] |}.

(** [_reportsByReporter[a].push(id)] *)
Definition push_id (index : address -> list nat) (a : address) (id : nat)
  : address -> list nat :=
  fun p => if p =? a then index p ++ [id] else index p.

(** [_reports[id].status = newStatus] *)
Definition set_status (r : Report) (newStatus : ReportStatus) : Report :=
  {| reporter := reporter r;
     title := title r;
     encryptedData := encryptedData r;
     encryptedKey := encryptedKey r;
     createdAt := createdAt r;
     status := newStatus |}.

Fixpoint store_at (l : list Report) (i : nat) (r : Report) : list Report :=
  match l, i with
  | [], _ => []
  | _ :: t, O => r :: t
  | h :: t, S i' => h :: store_at t i' r
  end.

Section Contract.

(** [address(this)], and [FHE.fromExternal] as a function of the external
    handle, the input proof and [msg.sender]: [None] when the
    verification reverts. *)
Variable this : address.
Variable fromExternal : externalEaddress -> list Z -> address -> option eaddress.

Definition submitReport (msg : Msg) (title_ : string)
  (encryptedData_ : list Z) (encKey : externalEaddress)
  (inputProof : list Z) (s : State) : result State :=
  match fromExternal encKey inputProof (sender msg) with
  | None => Revert InputRejected
  | Some key =>
      let r := {| reporter := sender msg;
                  title := title_;
                  encryptedData := encryptedData_;
                  encryptedKey := key;
                  createdAt := timestamp msg mod 2 ^ 64;
                  status := Pending |} in
      let reports := _reports s ++ [r] in
      let id := (List.length reports - 1)%nat in
      let index := push_id (_reportsByReporter s) (sender msg) id in
      match nth_error reports id with
      | None => Revert (Panic 0x32)
      | Some stored =>
          Ok {| _reports := reports;
                _reportsByReporter := index;
                allowed := allowed s
                           ++ [(encryptedKey stored, this);
                               (encryptedKey stored, sender msg)];
                events := events s
                          ++ [ReportSubmitted id (sender msg) title_
                                (createdAt r)] |}
      end
  end.

End Contract.

Definition getReportCount (s : State) : nat := List.length (_reports s).

Definition getReportCountByReporter (s : State) (reporter_ : address) : nat :=
  List.length (_reportsByReporter s reporter_).

Definition getReportIdsByReporter (s : State) (reporter_ : address)
  : list nat :=
  _reportsByReporter s reporter_.

Definition getReportMeta (s : State) (id : nat)
  : result (address * string * Z * ReportStatus) :=
  match nth_error (_reports s) id with
  | Some r => Ok (reporter r, title r, createdAt r, status r)
  | None => Revert (Panic 0x32)
  end.

Definition getReportData (s : State) (id : nat) : result (list Z) :=
  match nth_error (_reports s) id with
  | Some r => Ok (encryptedData r)
  | None => Revert (Panic 0x32)
  end.

Definition getEncryptedKey (s : State) (id : nat) : result eaddress :=
  match nth_error (_reports s) id with
  | Some r => Ok (encryptedKey r)
  | None => Revert (Panic 0x32)
  end.

Definition updateReportStatus (msg : Msg) (id : nat)
  (newStatus : ReportStatus) (s : State) : result State :=
  if (id <? List.length (_reports s))%nat then
    match nth_error (_reports s) id with
    | None => Revert (Panic 0x32)
    | Some r =>
        if reporter r =? sender msg then
          Ok {| _reports := store_at (_reports s) id (set_status r newStatus);
                _reportsByReporter := _reportsByReporter s;
                allowed := allowed s;
                events := events s ++ [ReportStatusUpdated id newStatus] |}
        else Revert (Error "Only reporter can update status")
    end
  else Revert (Error "Report does not exist").

(** The state a call leaves: the next state, or the old one after a
    revert. *)
Definition after (s : State) (r : result State) : State :=
  match r with
  | Ok s' => s'
  | Revert _ => s
  end.

(** The error classes of the design document, and the class of each
    failure of the contract. The messages [Title cannot be empty] and
    [Encrypted data cannot be empty] are the ones [test/CityGuard.ts]
    expects. *)
Inductive ErrorClass : Type :=
| InvalidInput
| InvalidProof
| NotFound
| PermissionDenied
| Unclassified.

Definition class_of (f : failure) : ErrorClass :=
  match f with
  | InputRejected => InvalidProof
  | Panic code => if code =? 0x32 then NotFound else Unclassified
  | Error reason =>
      if String.eqb reason "Report does not exist" then NotFound
      else if String.eqb reason "Only reporter can update status"
           then PermissionDenied
      else if String.eqb reason "Title cannot be empty" then InvalidInput
      else if String.eqb reason "Encrypted data cannot be empty"
           then InvalidInput
      else Unclassified
  end.

(** A sequence of transactions. *)
Inductive Call : Type :=
| CallSubmitReport (msg : Msg) (title_ : string) (encryptedData_ : list Z)
    (encKey : externalEaddress) (inputProof : list Z)
| CallUpdateReportStatus (msg : Msg) (id : nat) (newStatus : ReportStatus).

Section Transactions.

Variable this : address.
Variable fromExternal : externalEaddress -> list Z -> address -> option eaddress.

Definition exec (s : State) (c : Call) : result State :=
  match c with
  | CallSubmitReport msg t d k p =>
      submitReport this fromExternal msg t d k p s
  | CallUpdateReportStatus msg id st => updateReportStatus msg id st s
  end.

Definition step (s : State) (c : Call) : State := after s (exec s c).

Definition run (s : State) (calls : list Call) : State :=
  fold_left step calls s.

(** A call is a successful submission. *)
Definition submits (s : State) (c : Call) : bool :=
  match c, exec s c with
  | CallSubmitReport _ _ _ _ _, Ok _ => true
  | _, _ => false
  end.

Fixpoint submissions (s : State) (calls : list Call) : nat :=
  match calls with
  | [] => 0
  | c :: calls' =>
      ((if submits s c then 1 else 0) + submissions (step s c) calls')%nat
  end.

End Transactions.

(** The ids the [ReportSubmitted] events carry, in emission order. *)
Fixpoint submitted_ids (log : list Event) : list nat :=
  match log with
  | [] => []
  | ReportSubmitted id _ _ _ :: log' => id :: submitted_ids log'
  | ReportStatusUpdated _ _ :: log' => submitted_ids log'
  end.

(** Report [id] exists and its reporter is [p]. *)
Definition reported_by (s : State) (p : address) (id : nat) : bool :=
  match nth_error (_reports s) id with
  | Some r => reporter r =? p
  | None => false
  end.


(** *** The two transactions, written out *)

Lemma nth_error_last (l : list Report) (r : Report) :
  nth_error (l ++ [r]) (List.length (l ++ [r]) - 1) = Some r.
Proof.
  rewrite length_app. simpl.
  replace (List.length l + 1 - 1)%nat with (List.length l) by lia.
  rewrite nth_error_app2 by lia. now rewrite Nat.sub_diag.
Qed.

Lemma length_store_at (l : list Report) (i : nat) (r : Report) :
  List.length (store_at l i r) = List.length l.
Proof.
  revert i; induction l as [|h t IH]; intros [|i]; simpl; auto.
Qed.

Lemma nth_error_store_at_eq (l : list Report) (i : nat) (r : Report) :
  (i < List.length l)%nat -> nth_error (store_at l i r) i = Some r.
Proof.
  revert i; induction l as [|h t IH]; intros [|i] Hi; simpl in *;
    try lia; auto.
  apply IH; lia.
Qed.

Lemma nth_error_store_at_neq (l : list Report) (i j : nat) (r : Report) :
  i <> j -> nth_error (store_at l i r) j = nth_error l j.
Proof.
  revert i j; induction l as [|h t IH]; intros [|i] [|j] Hij; simpl;
    auto; try congruence.
Qed.

(** The report [submitReport] builds. *)
Definition new_report (msg : Msg) (title_ : string)
  (encryptedData_ : list Z) (key : eaddress) : Report :=
  {| reporter := sender msg;
     title := title_;
     encryptedData := encryptedData_;
     encryptedKey := key;
     createdAt := timestamp msg mod 2 ^ 64;
     status := Pending |}.

Lemma submitReport_result (this : address)
  (fromExternal : externalEaddress -> list Z -> address -> option eaddress)
  (msg : Msg) (title_ : string) (encryptedData_ : list Z)
  (encKey : externalEaddress) (inputProof : list Z) (s : State) :
  submitReport this fromExternal msg title_ encryptedData_ encKey inputProof s
  = match fromExternal encKey inputProof (sender msg) with
    | None => Revert InputRejected
    | Some key =>
        Ok {| _reports :=
                _reports s ++ [new_report msg title_ encryptedData_ key];
              _reportsByReporter :=
                push_id (_reportsByReporter s) (sender msg)
                        (List.length (_reports s));
              allowed := allowed s ++ [(key, this); (key, sender msg)];
              events := events s
                        ++ [ReportSubmitted (List.length (_reports s))
                              (sender msg) title_
                              (timestamp msg mod 2 ^ 64)] |}
    end.
Proof.
  unfold submitReport.
  destruct (fromExternal encKey inputProof (sender msg)) as [key|];
    [|reflexivity].
  cbv zeta. fold (new_report msg title_ encryptedData_ key).
  rewrite nth_error_last.
  rewrite length_app. simpl.
  replace (List.length (_reports s) + 1 - 1)%nat
    with (List.length (_reports s)) by lia.
  reflexivity.
Qed.

Lemma updateReportStatus_result (msg : Msg) (id : nat)
  (newStatus : ReportStatus) (s : State) :
  updateReportStatus msg id newStatus s
  = match nth_error (_reports s) id with
    | None => Revert (Error "Report does not exist")
    | Some r =>
        if reporter r =? sender msg then
          Ok {| _reports := store_at (_reports s) id (set_status r newStatus);
                _reportsByReporter := _reportsByReporter s;
                allowed := allowed s;
                events := events s ++ [ReportStatusUpdated id newStatus] |}
        else Revert (Error "Only reporter can update status")
    end.
Proof.
  unfold updateReportStatus.
  destruct (Nat.ltb_spec id (List.length (_reports s))) as [Hlt|Hge].
  - destruct (nth_error (_reports s) id) eqn:E; [reflexivity|].
    apply nth_error_None in E. lia.
  - apply nth_error_None in Hge. now rewrite Hge.
Qed.

(** *** C3: no validation of the title or of the data *)

(** An FHE library that accepts every input and keeps the handle. *)
Definition accept_all : externalEaddress -> list Z -> address -> option eaddress :=
  fun handle _ _ => Some handle.

(** C3 on the code. [submitReport] has no [require]: the calls of
    [test/CityGuard.ts] with an empty title and with empty data succeed
    and store a report, where the test expects the reverts
    [Title cannot be empty] and [Encrypted data cannot be empty]. *)
Lemma submitReport_stores_empty_input :
  let alice := {| sender := 0xA11CE; timestamp := 1700000000 |} in
  (exists s',
      submitReport 0xC0DE accept_all alice ""
        [99; 111; 110; 116; 101; 110; 116] 7 [] deployed = Ok s'
      /\ getReportCount s' = 1%nat
      /\ getReportMeta s' 0 = Ok (0xA11CE, ""%string, 1700000000, Pending))
  /\ (exists s',
         submitReport 0xC0DE accept_all alice "Title" [] 7 [] deployed = Ok s'
         /\ getReportCount s' = 1%nat
         /\ getReportData s' 0 = Ok []).
Proof.
  split; eexists; (split; [reflexivity|split; reflexivity]).
Qed.

(** *** C4 and C9: access to one report *)

(** C9. For an id outside [[0, getReportCount())] each of the three
    getters reverts (an out-of-bounds array access, in the class
    [NotFound]); for an id inside it each returns the stored fields of
    report [id]. *)
Theorem getters_by_id (s : State) (id : nat) :
  ((getReportCount s <= id)%nat ->
   getReportMeta s id = Revert (Panic 0x32)
   /\ getReportData s id = Revert (Panic 0x32)
   /\ getEncryptedKey s id = Revert (Panic 0x32)
   /\ class_of (Panic 0x32) = NotFound)
  /\ ((id < getReportCount s)%nat ->
      exists r,
        nth_error (_reports s) id = Some r
        /\ getReportMeta s id
           = Ok (reporter r, title r, createdAt r, status r)
        /\ getReportData s id = Ok (encryptedData r)
        /\ getEncryptedKey s id = Ok (encryptedKey r)).
Proof.
  unfold getReportCount, getReportMeta, getReportData, getEncryptedKey.
  split.
  - intros Hid. apply nth_error_None in Hid. rewrite Hid. auto.
  - intros Hid. destruct (nth_error (_reports s) id) as [r|] eqn:E.
    + exists r; auto.
    + apply nth_error_None in E. lia.
Qed.

(** C4. [updateReportStatus] reverts with [Report does not exist]
    ([NotFound]) for an id outside [[0, count)], and with
    [Only reporter can update status] ([PermissionDenied]) when the
    caller is not the reporter of report [id]; the state, and so the
    status, is then unchanged. Otherwise it succeeds and sets the status
    to [newStatus], whatever the current status is. *)
Theorem updateReportStatus_spec (msg : Msg) (id : nat)
  (newStatus : ReportStatus) (s : State) :
  ((getReportCount s <= id)%nat ->
   updateReportStatus msg id newStatus s
   = Revert (Error "Report does not exist")
   /\ class_of (Error "Report does not exist") = NotFound
   /\ after s (updateReportStatus msg id newStatus s) = s)
  /\ (forall r,
         nth_error (_reports s) id = Some r ->
         reporter r <> sender msg ->
         updateReportStatus msg id newStatus s
         = Revert (Error "Only reporter can update status")
         /\ class_of (Error "Only reporter can update status")
            = PermissionDenied
         /\ after s (updateReportStatus msg id newStatus s) = s
         /\ getReportMeta (after s (updateReportStatus msg id newStatus s)) id
            = Ok (reporter r, title r, createdAt r, status r))
  /\ (forall r,
         nth_error (_reports s) id = Some r ->
         reporter r = sender msg ->
         exists s',
           updateReportStatus msg id newStatus s = Ok s'
           /\ getReportMeta s' id
              = Ok (reporter r, title r, createdAt r, newStatus)).
Proof.
  rewrite updateReportStatus_result. split; [|split].
  - unfold getReportCount. intros Hid. apply nth_error_None in Hid.
    rewrite Hid. auto.
  - intros r Hr Hne. rewrite Hr.
    destruct (Z.eqb_spec (reporter r) (sender msg)) as [E|_];
      [contradiction|].
    simpl. unfold getReportMeta. rewrite Hr. auto.
  - intros r Hr He. rewrite Hr.
    destruct (Z.eqb_spec (reporter r) (sender msg)) as [_|N];
      [|contradiction].
    eexists; split; [reflexivity|].
    unfold getReportMeta; simpl.
    rewrite nth_error_store_at_eq; [reflexivity|].
    apply nth_error_Some. congruence.
Qed.


(** A state with one report of Alice's, and Bob. *)
Definition alice : Msg := {| sender := 0xA11CE; timestamp := 1700000000 |}.
Definition bob : Msg := {| sender := 0xB0B; timestamp := 1700000060 |}.

Definition one_report : State :=
  after deployed
    (submitReport 0xC0DE accept_all alice "T" [1; 2; 3] 7 [] deployed).

Lemma getters_by_id_witness :
  (getReportMeta one_report 3 = Revert (Panic 0x32)
   /\ getReportData one_report 3 = Revert (Panic 0x32)
   /\ getEncryptedKey one_report 3 = Revert (Panic 0x32)
   /\ class_of (Panic 0x32) = NotFound)
  /\ exists r,
      nth_error (_reports one_report) 0 = Some r
      /\ getReportMeta one_report 0
         = Ok (reporter r, title r, createdAt r, status r)
      /\ getReportData one_report 0 = Ok (encryptedData r)
      /\ getEncryptedKey one_report 0 = Ok (encryptedKey r).
Proof.
  split.
  - apply (proj1 (getters_by_id one_report 3)). vm_compute. lia.
  - apply (proj2 (getters_by_id one_report 0)). vm_compute. lia.
Defined.

Lemma updateReportStatus_spec_witness :
  (updateReportStatus alice 3 Reviewed one_report
   = Revert (Error "Report does not exist")
   /\ class_of (Error "Report does not exist") = NotFound
   /\ after one_report (updateReportStatus alice 3 Reviewed one_report)
      = one_report)
  /\ (updateReportStatus bob 0 Reviewed one_report
      = Revert (Error "Only reporter can update status")
      /\ class_of (Error "Only reporter can update status")
         = PermissionDenied
      /\ after one_report (updateReportStatus bob 0 Reviewed one_report)
         = one_report
      /\ getReportMeta
           (after one_report (updateReportStatus bob 0 Reviewed one_report)) 0
         = Ok (0xA11CE, "T"%string, 1700000000, Pending))
  /\ exists s',
      updateReportStatus alice 0 Resolved one_report = Ok s'
      /\ getReportMeta s' 0 = Ok (0xA11CE, "T"%string, 1700000000, Resolved).
Proof.
  split; [|split].
  - apply (proj1 (updateReportStatus_spec alice 3 Reviewed one_report)).
    vm_compute. lia.
  - apply (proj1 (proj2 (updateReportStatus_spec bob 0 Reviewed one_report))
             (new_report alice "T" [1; 2; 3] 7)).
    + reflexivity.
    + discriminate.
  - apply (proj2 (proj2 (updateReportStatus_spec alice 0 Resolved one_report))
             (new_report alice "T" [1; 2; 3] 7)).
    + reflexivity.
    + reflexivity.
Defined.

(** *** C5: ids and the reporter index along any sequence of calls *)

Lemma submitted_ids_app (l1 l2 : list Event) :
  submitted_ids (l1 ++ l2) = submitted_ids l1 ++ submitted_ids l2.
Proof.
  induction l1 as [|[id a t c|id st] l1 IH]; simpl; auto.
  now rewrite IH.
Qed.

(** The index of every account lists, in increasing order, the ids of
    the reports whose reporter it is, and the ids emitted are
    [0, 1, ..., count - 1]. *)
Definition index_exact (s : State) : Prop :=
  (forall p,
      _reportsByReporter s p
      = filter (reported_by s p) (seq 0 (List.length (_reports s))))
  /\ submitted_ids (events s) = seq 0 (List.length (_reports s)).

Lemma index_exact_deployed : index_exact deployed.
Proof. split; intros; reflexivity. Qed.

Section Traces.

Variable this : address.
Variable fromExternal : externalEaddress -> list Z -> address -> option eaddress.

Lemma index_exact_submit (msg : Msg) (t : string) (d : list Z)
  (k : externalEaddress) (p : list Z) (s s' : State) :
  index_exact s ->
  submitReport this fromExternal msg t d k p s = Ok s' ->
  index_exact s'
  /\ List.length (_reports s') = S (List.length (_reports s)).
Proof.
  intros [Hidx Hev] Hrun. rewrite submitReport_result in Hrun.
  destruct (fromExternal k p (sender msg)) as [key|]; [|discriminate].
  injection Hrun as <-.
  set (n := List.length (_reports s)) in *.
  set (r := new_report msg t d key).
  assert (Hlen : List.length (_reports s ++ [r]) = S n)
    by (rewrite length_app; simpl; lia).
  unfold index_exact.
  cbn [_reports _reportsByReporter events allowed].
  rewrite Hlen. split; [|reflexivity]. split.
  - intros q. rewrite seq_S, filter_app. cbn [Nat.add filter].
    rewrite (filter_ext_in _ (reported_by s q) (seq 0 n));
      [|intros id Hid; apply in_seq in Hid;
        unfold reported_by; cbn [_reports];
        rewrite nth_error_app1 by (fold n; lia); reflexivity].
    rewrite <- Hidx.
    unfold reported_by at 1. cbn [_reports].
    rewrite nth_error_app2 by (fold n; lia).
    fold n. rewrite Nat.sub_diag. cbn [nth_error reporter r new_report].
    unfold push_id. rewrite (Z.eqb_sym (sender msg) q).
    destruct (q =? sender msg); [reflexivity|].
    now rewrite app_nil_r.
  - rewrite submitted_ids_app, Hev, seq_S. reflexivity.
Qed.

Lemma reported_by_update (msg : Msg) (id : nat) (st : ReportStatus)
  (s s' : State) :
  updateReportStatus msg id st s = Ok s' ->
  List.length (_reports s') = List.length (_reports s)
  /\ _reportsByReporter s' = _reportsByReporter s
  /\ submitted_ids (events s') = submitted_ids (events s)
  /\ forall q j, reported_by s' q j = reported_by s q j.
Proof.
  intros Hrun. rewrite updateReportStatus_result in Hrun.
  destruct (nth_error (_reports s) id) as [r|] eqn:Hr; [|discriminate].
  destruct (reporter r =? sender msg); [|discriminate].
  injection Hrun as <-. simpl.
  rewrite length_store_at, submitted_ids_app. simpl. rewrite app_nil_r.
  repeat split.
  intros q j. unfold reported_by. simpl.
  destruct (Nat.eq_dec id j) as [<-|Hne].
  - rewrite nth_error_store_at_eq
      by (apply nth_error_Some; congruence).
    now rewrite Hr.
  - now rewrite nth_error_store_at_neq.
Qed.

Lemma index_exact_update (msg : Msg) (id : nat) (st : ReportStatus)
  (s s' : State) :
  index_exact s ->
  updateReportStatus msg id st s = Ok s' ->
  index_exact s'.
Proof.
  intros [Hidx Hev] Hrun.
  destruct (reported_by_update msg id st s s' Hrun)
    as (Hlen & Hmap & Hlog & Hby).
  split.
  - intros q. rewrite Hmap, Hlen, Hidx.
    apply filter_ext. intros j. now rewrite Hby.
  - now rewrite Hlog, Hlen.
Qed.

Lemma step_keeps_index (s : State) (c : Call) :
  index_exact s ->
  index_exact (step this fromExternal s c)
  /\ List.length (_reports (step this fromExternal s c))
     = ((if submits this fromExternal s c then 1 else 0)
        + List.length (_reports s))%nat.
Proof.
  intros Hs. unfold step, submits.
  destruct c as [msg t d k p|msg id st]; simpl.
  - destruct (submitReport this fromExternal msg t d k p s) as [s'|f] eqn:E;
      simpl; [|auto].
    destruct (index_exact_submit msg t d k p s s' Hs E) as [Hs' Hlen].
    split; [exact Hs'|]. rewrite Hlen. reflexivity.
  - destruct (updateReportStatus msg id st s) as [s'|f] eqn:E; simpl;
      [|auto].
    split; [now apply (index_exact_update msg id st s s')|].
    now destruct (reported_by_update msg id st s s' E) as (Hlen & _).
Qed.

Lemma run_keeps_index (calls : list Call) :
  forall s,
    index_exact s ->
    index_exact (run this fromExternal s calls)
    /\ List.length (_reports (run this fromExternal s calls))
       = (List.length (_reports s) + submissions this fromExternal s calls)%nat.
Proof.
  induction calls as [|c calls IH]; intros s Hs.
  - split; [exact Hs|]. cbn [run fold_left submissions]. lia.
  - change (run this fromExternal s (c :: calls))
      with (run this fromExternal (step this fromExternal s c) calls).
    cbn [submissions].
    destruct (step_keeps_index s c Hs) as [Hs' Hlen].
    destruct (IH _ Hs') as [Hfin Hcount].
    split; [exact Hfin|].
    rewrite Hcount, Hlen. lia.
Qed.

End Traces.

(** C5. After any sequence of calls from deployment, of which [N] are
    successful [submitReport] calls (the others being status updates or
    reverted calls), [getReportCount] is [N], the ids that exist are
    exactly those below [N], the ids handed out are [0, 1, ..., N-1] in
    this order, and for every account [p] [getReportIdsByReporter p] is
    the increasing list of the ids whose report has reporter [p], with
    [getReportCountByReporter p] its length. *)
Theorem ids_dense_and_index_exact (this : address)
  (fromExternal : externalEaddress -> list Z -> address -> option eaddress)
  (calls : list Call) :
  let s := run this fromExternal deployed calls in
  let N := submissions this fromExternal deployed calls in
  getReportCount s = N
  /\ (forall id, (id < N)%nat <-> exists m, getReportMeta s id = Ok m)
  /\ submitted_ids (events s) = seq 0 N
  /\ forall p,
      getReportIdsByReporter s p = filter (reported_by s p) (seq 0 N)
      /\ getReportCountByReporter s p
         = List.length (filter (reported_by s p) (seq 0 N)).
Proof.
  intros s N.
  destruct (run_keeps_index this fromExternal calls deployed
              index_exact_deployed) as [[Hidx Hev] Hlen].
  fold s in Hidx, Hev, Hlen. simpl in Hlen. fold N in Hlen.
  unfold getReportCount, getReportIdsByReporter, getReportCountByReporter.
  rewrite <- Hlen.
  split; [reflexivity|]. split; [|split].
  - intros id. unfold getReportMeta. split.
    + intros Hid. apply nth_error_Some in Hid.
      destruct (nth_error (_reports s) id) as [r|]; [|congruence].
      eexists; reflexivity.
    + intros [m Hm]. apply nth_error_Some.
      destruct (nth_error (_reports s) id); [congruence|discriminate].
  - exact Hev.
  - intros p. rewrite Hidx. auto.
Qed.


(** The two accounts of the test [should track reports by reporter]:
    Alice submits twice, Bob once (and a status update and a reverted
    update in between). *)
Definition sample_calls : list Call :=
  [CallSubmitReport alice "Report 0" [116; 101; 115; 116] 7 [];
   CallUpdateReportStatus alice 0 Reviewed;
   CallSubmitReport alice "Report 1" [116; 101; 115; 116] 8 [];
   CallUpdateReportStatus bob 1 Resolved;
   CallSubmitReport bob "Bob Report" [116; 101; 115; 116] 9 []].

Example sample_calls_index :
  let s := run 0xC0DE accept_all deployed sample_calls in
  getReportCount s = 3%nat
  /\ getReportIdsByReporter s (sender alice) = [0; 1]%nat
  /\ getReportCountByReporter s (sender alice) = 2%nat
  /\ getReportIdsByReporter s (sender bob) = [2]%nat
  /\ getReportCountByReporter s (sender bob) = 1%nat.
Proof. vm_compute. repeat split. Qed.

(** *** C6: what a transaction leaves unchanged *)

(** The fields of a report other than its status. *)
Definition same_content (r r' : Report) : Prop :=
  reporter r' = reporter r
  /\ title r' = title r
  /\ encryptedData r' = encryptedData r
  /\ encryptedKey r' = encryptedKey r
  /\ createdAt r' = createdAt r.

Lemma same_content_refl (r : Report) : same_content r r.
Proof. unfold same_content; auto. Qed.

Lemma same_content_trans (r1 r2 r3 : Report) :
  same_content r1 r2 -> same_content r2 r3 -> same_content r1 r3.
Proof. unfold same_content; intuition congruence. Qed.

Lemma updateReportStatus_frame (msg : Msg) (id : nat)
  (newStatus : ReportStatus) (s s' : State) :
  updateReportStatus msg id newStatus s = Ok s' ->
  (forall j r,
      nth_error (_reports s) j = Some r ->
      exists r',
        nth_error (_reports s') j = Some r'
        /\ same_content r r'
        /\ (j <> id -> r' = r)
        /\ (j = id -> status r' = newStatus))
  /\ List.length (_reports s') = List.length (_reports s)
  /\ (forall p, _reportsByReporter s' p = _reportsByReporter s p)
  /\ allowed s' = allowed s.
Proof.
  intros Hrun. rewrite updateReportStatus_result in Hrun.
  destruct (nth_error (_reports s) id) as [r0|] eqn:Hr0; [|discriminate].
  destruct (reporter r0 =? sender msg); [|discriminate].
  injection Hrun as <-. cbn [_reports _reportsByReporter allowed].
  split; [|split; [apply length_store_at|split; reflexivity]].
  intros j r Hr. destruct (Nat.eq_dec id j) as [<-|Hne].
  - exists (set_status r0 newStatus).
    rewrite nth_error_store_at_eq by (apply nth_error_Some; congruence).
    assert (r0 = r) by congruence. subst r0.
    split; [reflexivity|].
    split; [unfold same_content; cbn; auto|].
    split; [intros N; now elim N|reflexivity].
  - exists r. rewrite nth_error_store_at_neq by assumption.
    split; [exact Hr|]. split; [apply same_content_refl|].
    split; [reflexivity|]. intros E. congruence.
Qed.

Lemma submitReport_frame (this : address)
  (fromExternal : externalEaddress -> list Z -> address -> option eaddress)
  (msg : Msg) (t : string) (d : list Z) (k : externalEaddress)
  (p : list Z) (s s' : State) :
  submitReport this fromExternal msg t d k p s = Ok s' ->
  (forall j r,
      nth_error (_reports s) j = Some r -> nth_error (_reports s') j = Some r)
  /\ (forall q, q <> sender msg ->
                _reportsByReporter s' q = _reportsByReporter s q).
Proof.
  intros Hrun. rewrite submitReport_result in Hrun.
  destruct (fromExternal k p (sender msg)) as [key|]; [|discriminate].
  injection Hrun as <-. cbn [_reports _reportsByReporter]. split.
  - intros j r Hr. rewrite nth_error_app1; [exact Hr|].
    apply nth_error_Some. congruence.
  - intros q Hq. unfold push_id.
    destruct (Z.eqb_spec q (sender msg)); [contradiction|reflexivity].
Qed.

Lemma step_keeps_content (this : address)
  (fromExternal : externalEaddress -> list Z -> address -> option eaddress)
  (s : State) (c : Call) (j : nat) (r : Report) :
  nth_error (_reports s) j = Some r ->
  exists r',
    nth_error (_reports (step this fromExternal s c)) j = Some r'
    /\ same_content r r'.
Proof.
  intros Hr. unfold step.
  destruct c as [msg t d k p|msg id st]; cbn [exec].
  - destruct (submitReport this fromExternal msg t d k p s) as [s'|f] eqn:E;
      cbn [after].
    + exists r. split; [|apply same_content_refl].
      now apply (proj1 (submitReport_frame _ _ _ _ _ _ _ _ _ E)).
    + exists r. split; [exact Hr|apply same_content_refl].
  - destruct (updateReportStatus msg id st s) as [s'|f] eqn:E; cbn [after].
    + destruct (proj1 (updateReportStatus_frame _ _ _ _ _ E) j r Hr)
        as (r' & Hr' & Hsame & _).
      now exists r'.
    + exists r. split; [exact Hr|apply same_content_refl].
Qed.

Lemma run_keeps_content (this : address)
  (fromExternal : externalEaddress -> list Z -> address -> option eaddress)
  (calls : list Call) :
  forall (s : State) (j : nat) (r : Report),
    nth_error (_reports s) j = Some r ->
    exists r',
      nth_error (_reports (run this fromExternal s calls)) j = Some r'
      /\ same_content r r'.
Proof.
  induction calls as [|c calls IH]; intros s j r Hr.
  - exists r. split; [exact Hr|apply same_content_refl].
  - change (run this fromExternal s (c :: calls))
      with (run this fromExternal (step this fromExternal s c) calls).
    destruct (step_keeps_content this fromExternal s c j r Hr)
      as (r1 & Hr1 & H1).
    destruct (IH _ j r1 Hr1) as (r2 & Hr2 & H2).
    exists r2. split; [exact Hr2|]. now apply (same_content_trans r r1 r2).
Qed.

(** C6. A successful [updateReportStatus] changes, in the contract's
    storage, only the status of report [id]: every report keeps its
    reporter, title, encrypted data, encrypted key and creation time,
    every other report is unchanged, and so are the indexes. A successful
    [submitReport] leaves every report stored before it, and the index of
    every account but the caller's, unchanged. So along any sequence of
    calls a report, once stored, keeps these five fields. *)
Theorem reports_immutable_but_status (this : address)
  (fromExternal : externalEaddress -> list Z -> address -> option eaddress) :
  (forall msg id newStatus s s',
      updateReportStatus msg id newStatus s = Ok s' ->
      (forall j r,
          nth_error (_reports s) j = Some r ->
          exists r',
            nth_error (_reports s') j = Some r'
            /\ same_content r r'
            /\ (j <> id -> r' = r)
            /\ (j = id -> status r' = newStatus))
      /\ List.length (_reports s') = List.length (_reports s)
      /\ (forall p, _reportsByReporter s' p = _reportsByReporter s p)
      /\ allowed s' = allowed s)
  /\ (forall msg t d k p s s',
         submitReport this fromExternal msg t d k p s = Ok s' ->
         (forall j r,
             nth_error (_reports s) j = Some r ->
             nth_error (_reports s') j = Some r)
         /\ (forall q, q <> sender msg ->
                       _reportsByReporter s' q = _reportsByReporter s q))
  /\ (forall calls s j r,
         nth_error (_reports s) j = Some r ->
         exists r',
           nth_error (_reports (run this fromExternal s calls)) j = Some r'
           /\ same_content r r').
Proof.
  split; [|split].
  - intros msg id newStatus s s'. apply updateReportStatus_frame.
  - intros msg t d k p s s'. apply submitReport_frame.
  - intros calls. apply run_keeps_content.
Qed.


Lemma reports_immutable_but_status_witness :
  exists r',
    nth_error (_reports (run 0xC0DE accept_all one_report sample_calls)) 0
    = Some r'
    /\ same_content (new_report alice "T" [1; 2; 3] 7) r'.
Proof.
  apply (proj2 (proj2 (reports_immutable_but_status 0xC0DE accept_all))
           sample_calls one_report 0%nat).
  reflexivity.
Defined.


(** *** Reading back what was submitted *)

(** When the input verification accepts the encrypted key,
    [submitReport] succeeds, and the new report is readable under the
    id [getReportCount()] had before the call: the caller as reporter,
    the title and the data as given, the creation time (the block
    timestamp as a [uint64]), the status [Pending] and the verified key
    handle, to which the contract and the caller are granted access.
    When the verification rejects it, the call reverts. *)
Theorem submitReport_then_read (this : address)
  (fromExternal : externalEaddress -> list Z -> address -> option eaddress)
  (msg : Msg) (title_ : string) (encryptedData_ : list Z)
  (encKey : externalEaddress) (inputProof : list Z) (s : State) :
  (forall key,
      fromExternal encKey inputProof (sender msg) = Some key ->
      exists s',
        submitReport this fromExternal msg title_ encryptedData_ encKey
          inputProof s = Ok s'
        /\ getReportCount s' = S (getReportCount s)
        /\ getReportMeta s' (getReportCount s)
           = Ok (sender msg, title_, timestamp msg mod 2 ^ 64, Pending)
        /\ getReportData s' (getReportCount s) = Ok encryptedData_
        /\ getEncryptedKey s' (getReportCount s) = Ok key
        /\ In (key, this) (allowed s')
        /\ In (key, sender msg) (allowed s'))
  /\ (fromExternal encKey inputProof (sender msg) = None ->
      submitReport this fromExternal msg title_ encryptedData_ encKey
        inputProof s = Revert InputRejected).
Proof.
  rewrite submitReport_result. split.
  - intros key Hkey. rewrite Hkey. eexists. split; [reflexivity|].
    unfold getReportCount, getReportMeta, getReportData, getEncryptedKey.
    cbn [_reports allowed].
    rewrite length_app, nth_error_app2, Nat.sub_diag by lia.
    cbn [nth_error List.length new_report reporter title createdAt status
           encryptedData encryptedKey].
    split; [lia|]. repeat (split; [reflexivity|]).
    split; apply in_or_app; right; simpl; auto.
  - intros Hnone. now rewrite Hnone.
Qed.

Lemma submitReport_then_read_witness :
  (exists s',
      submitReport 0xC0DE accept_all bob "B" [9; 8] 11 [] one_report = Ok s'
      /\ getReportCount s' = S (getReportCount one_report)
      /\ getReportMeta s' (getReportCount one_report)
         = Ok (sender bob, "B"%string, timestamp bob mod 2 ^ 64, Pending)
      /\ getReportData s' (getReportCount one_report) = Ok [9; 8]
      /\ getEncryptedKey s' (getReportCount one_report) = Ok 11
      /\ In (11, 0xC0DE) (allowed s')
      /\ In (11, sender bob) (allowed s'))
  /\ submitReport 0xC0DE (fun _ _ _ => None) bob "B" [9; 8] 11 [] one_report
     = Revert InputRejected.
Proof.
  split.
  - apply (proj1 (submitReport_then_read 0xC0DE accept_all bob "B" [9; 8]
                    11 [] one_report) 11).
    reflexivity.
  - apply (proj2 (submitReport_then_read 0xC0DE (fun _ _ _ => None) bob "B"
                    [9; 8] 11 [] one_report)).
    reflexivity.
Defined.

(** *** Status updates compose *)

Lemma store_at_twice (l : list Report) (i : nat) (r1 r2 : Report) :
  store_at (store_at l i r1) i r2 = store_at l i r2.
Proof.
  revert i; induction l as [|h t IH]; intros [|i]; simpl; auto.
  now rewrite IH.
Qed.

(** After a successful status update, a second update of the same report
    by the same caller succeeds too, and leaves the reports as the second
    update alone would have: the last status wins, whatever the two
    statuses are, and both updates are logged in order. *)
Theorem updateReportStatus_twice (msg : Msg) (id : nat)
  (first second : ReportStatus) (s s1 : State) :
  updateReportStatus msg id first s = Ok s1 ->
  exists s2 s2',
    updateReportStatus msg id second s1 = Ok s2
    /\ updateReportStatus msg id second s = Ok s2'
    /\ _reports s2 = _reports s2'
    /\ events s2
       = events s ++ [ReportStatusUpdated id first;
                      ReportStatusUpdated id second].
Proof.
  intros H1. rewrite updateReportStatus_result in H1.
  rewrite !updateReportStatus_result.
  destruct (nth_error (_reports s) id) as [r|] eqn:Hr; [|discriminate].
  destruct (reporter r =? sender msg) eqn:Hown; [|discriminate].
  injection H1 as <-. cbn [_reports events].
  rewrite nth_error_store_at_eq by (apply nth_error_Some; congruence).
  cbn [set_status reporter]. rewrite Hown.
  do 2 eexists. split; [reflexivity|]. split; [reflexivity|].
  cbn [_reports events]. split.
  - now rewrite store_at_twice.
  - now rewrite <- app_assoc.
Qed.

Lemma updateReportStatus_twice_witness :
  exists s1,
    updateReportStatus alice 0 Resolved one_report = Ok s1
    /\ exists s2 s2',
        updateReportStatus alice 0 Pending s1 = Ok s2
        /\ updateReportStatus alice 0 Pending one_report = Ok s2'
        /\ _reports s2 = _reports s2'
        /\ events s2
           = events one_report ++ [ReportStatusUpdated 0 Resolved;
                                   ReportStatusUpdated 0 Pending].
Proof.
  eexists. split; [reflexivity|].
  apply (updateReportStatus_twice alice 0 Resolved Pending one_report).
  reflexivity.
Defined.

(** *** Who may decrypt a key *)

(** The grants [submitReport] makes for a report. *)
Definition grants_of (this : address) (reports : list Report)
  : list (eaddress * address) :=
  flat_map (fun r => [(encryptedKey r, this); (encryptedKey r, reporter r)])
           reports.

Lemma grants_of_store_at (this : address) (l : list Report) (i : nat)
  (r : Report) (newStatus : ReportStatus) :
  nth_error l i = Some r ->
  grants_of this (store_at l i (set_status r newStatus)) = grants_of this l.
Proof.
  unfold grants_of. revert i; induction l as [|h t IH]; intros [|i] Hr;
    simpl in *; try discriminate.
  - now injection Hr as ->.
  - now rewrite IH.
Qed.

Lemma step_keeps_grants (this : address)
  (fromExternal : externalEaddress -> list Z -> address -> option eaddress)
  (s : State) (c : Call) :
  allowed s = grants_of this (_reports s) ->
  allowed (step this fromExternal s c)
  = grants_of this (_reports (step this fromExternal s c)).
Proof.
  intros Hs. unfold step. destruct c as [msg t d k p|msg id st]; cbn [exec].
  - rewrite submitReport_result.
    destruct (fromExternal k p (sender msg)) as [key|]; cbn [after];
      [|exact Hs].
    cbn [allowed _reports]. unfold grants_of. rewrite flat_map_app.
    fold (grants_of this (_reports s)). rewrite <- Hs. reflexivity.
  - rewrite updateReportStatus_result.
    destruct (nth_error (_reports s) id) as [r|] eqn:Hr; cbn [after];
      [|exact Hs].
    destruct (reporter r =? sender msg); cbn [after]; [|exact Hs].
    cbn [allowed _reports]. now rewrite grants_of_store_at.
Qed.

Lemma run_keeps_grants (this : address)
  (fromExternal : externalEaddress -> list Z -> address -> option eaddress)
  (calls : list Call) :
  forall s,
    allowed s = grants_of this (_reports s) ->
    allowed (run this fromExternal s calls)
    = grants_of this (_reports (run this fromExternal s calls)).
Proof.
  induction calls as [|c calls IH]; intros s Hs; [exact Hs|].
  change (run this fromExternal s (c :: calls))
    with (run this fromExternal (step this fromExternal s c) calls).
  apply IH. now apply step_keeps_grants.
Qed.

(** After any sequence of calls from deployment, the access list holds,
    for each stored report in order, the grant of its key to the contract
    and to its reporter, and nothing else: whoever may decrypt a key is
    the contract or the reporter of a report with that key, and no status
    update adds or removes a grant. *)
Theorem grants_exact (this : address)
  (fromExternal : externalEaddress -> list Z -> address -> option eaddress)
  (calls : list Call) :
  let s := run this fromExternal deployed calls in
  allowed s = grants_of this (_reports s)
  /\ forall handle account,
      In (handle, account) (allowed s) ->
      exists id r,
        nth_error (_reports s) id = Some r
        /\ encryptedKey r = handle
        /\ (account = this \/ account = reporter r).
Proof.
  intros s.
  assert (Hs : allowed s = grants_of this (_reports s))
    by (apply run_keeps_grants; reflexivity).
  split; [exact Hs|].
  intros handle account Hin. rewrite Hs in Hin.
  unfold grants_of in Hin. apply in_flat_map in Hin.
  destruct Hin as (r & Hr & Hg).
  destruct (In_nth_error _ _ Hr) as [id Hid].
  exists id, r. split; [exact Hid|].
  simpl in Hg. destruct Hg as [E|[E|[]]]; injection E as <- <-; auto.
Qed.

(** *** Every report is in exactly its reporter's index *)

(** After any sequence of calls from deployment, no id occurs twice in
    an account's index, and an id is in the index of [p] exactly when
    the report with this id exists and [p] is its reporter: the indexes
    of different accounts share no id, and every report is listed. *)
Theorem reporter_index_partition (this : address)
  (fromExternal : externalEaddress -> list Z -> address -> option eaddress)
  (calls : list Call) (p : address) :
  let s := run this fromExternal deployed calls in
  NoDup (getReportIdsByReporter s p)
  /\ forall id,
      In id (getReportIdsByReporter s p)
      <-> exists r, nth_error (_reports s) id = Some r /\ reporter r = p.
Proof.
  intros s.
  destruct (run_keeps_index this fromExternal calls deployed
              index_exact_deployed) as [[Hidx _] _].
  fold s in Hidx. unfold getReportIdsByReporter. rewrite Hidx.
  split.
  - apply NoDup_filter, seq_NoDup.
  - intros id. rewrite filter_In, in_seq. unfold reported_by. split.
    + intros [_ Hby].
      destruct (nth_error (_reports s) id) as [r|]; [|discriminate].
      exists r. split; [reflexivity|]. now apply Z.eqb_eq.
    + intros (r & Hr & Hp). split.
      * assert (id < List.length (_reports s))%nat
          by (apply nth_error_Some; congruence).
        lia.
      * rewrite Hr. now apply Z.eqb_eq.
Qed.

End CityGuard.
